(** * fashion_ai_v2: topic selection, image fetch, aesthetic scoring, ranking

    A shallow embedding of [fashion_ai_v2.py].  The script is a Streamlit
    page: it reads two widgets, queries the Unsplash search API once per
    topic, scores every image with CLIP, sorts the records by score and shows
    the first five.  Everything the script obtains from outside (widget
    values, the secret, HTTP responses, decoded images, the model's logit, the
    random generator) is a field of [world]; everything it does to the outside
    (UI elements, HTTP requests) is an [event] appended to a trace.

    Python values are embedded as follows.
    - [str]   : a sequence of Unicode code points ([list N]).
    - [float] : an IEEE 754 binary64 value, [spec_float] with the operations
                of [SpecFloat] at precision 53 and maximal exponent 1024.
    - a value decoded from JSON : [pyval].
    - an exception : [exn]; a computation that may raise : [result]. *)

From Stdlib Require Import ZArith NArith PArith List Bool Lia String Ascii.
From Stdlib Require Import Permutation.
From Stdlib Require Import Floats.SpecFloat.
Import ListNotations.

Set Warnings "-register-all".
Local Open Scope Z_scope.

(* ================================================================== *)
(** ** Python strings *)

Module PyStr.

Definition char := N.
Definition str := list char.

(** A literal of the source, as code points. *)
Definition lit (s : string) : str :=
  List.map N_of_ascii (list_ascii_of_string s).

Definition comma : char := 44%N.

(** [Py_UNICODE_ISSPACE]: the characters [str.strip()] removes. *)
Definition isspace (c : char) : bool :=
  ((9 <=? c) && (c <=? 13) || (28 <=? c) && (c <=? 32)
   || (c =? 133) || (c =? 160) || (c =? 5760)
   || (8192 <=? c) && (c <=? 8202)
   || (c =? 8232) || (c =? 8233) || (c =? 8239) || (c =? 8287)
   || (c =? 12288))%N.

Fixpoint lstrip (s : str) : str :=
  match s with
  | [] => []
  | c :: s' => if isspace c then lstrip s' else s
  end.

Definition rstrip (s : str) : str := rev (lstrip (rev s)).

(** [s.strip()] *)
Definition strip (s : str) : str := rstrip (lstrip s).

(** [s.split(sep)] for a one-character separator: one piece more than there
    are separators, [""] splitting into [[""]]. *)
Fixpoint split (sep : char) (s : str) : list str :=
  match s with
  | [] => [[]]
  | c :: s' =>
      if (c =? sep)%N then [] :: split sep s'
      else match split sep s' with
           | p :: ps => (c :: p) :: ps
           | [] => [[c]]
           end
  end.

(** [sep.join(pieces)] *)
Fixpoint join (sep : char) (pieces : list str) : str :=
  match pieces with
  | [] => []
  | [p] => p
  | p :: ps => p ++ sep :: join sep ps
  end.

(** Truth value of a string: non-empty. *)
Definition nonempty (s : str) : bool :=
  match s with [] => false | _ => true end.

Definition eqb (a b : str) : bool :=
  if list_eq_dec N.eq_dec a b then true else false.

End PyStr.
Export PyStr.

(* ================================================================== *)
(** ** Exceptions

    The exceptions the script can meet ([MediaFileStorageError] is what
    [st.image] raises for a source it cannot serve).  [except Exception]
    catches the
    instances of [Exception]; [KeyboardInterrupt] and Streamlit's
    [StopException] (raised by [st.stop()]) derive from [BaseException]
    only. *)

Inductive exn :=
| KeyError | TypeError | AttributeError | JSONDecodeError
| RequestException | UnidentifiedImageError | RuntimeError | OverflowError
| MediaFileStorageError
| KeyboardInterrupt | StopException.

Definition isinstance_Exception (e : exn) : bool :=
  match e with
  | KeyboardInterrupt | StopException => false
  | _ => true
  end.

Inductive result (A : Type) :=
| Ok (a : A)
| Raise (e : exn).
Arguments Ok {A} a.
Arguments Raise {A} e.

Definition rbind {A B} (r : result A) (k : A -> result B) : result B :=
  match r with
  | Ok a => k a
  | Raise e => Raise e
  end.

(** A comprehension [[f(x) for x in l]] whose body may raise: the first
    exception ends it. *)
Fixpoint rmap {A B} (f : A -> result B) (l : list A) : result (list B) :=
  match l with
  | [] => Ok []
  | x :: l' => rbind (f x) (fun y => rbind (rmap f l') (fun ys => Ok (y :: ys)))
  end.

(* ================================================================== *)
(** ** Python floats: IEEE 754 binary64 *)

Module PyFloat.

Definition float := spec_float.

Definition prec : Z := 53.
Definition emax : Z := 1024.

Definition fadd : float -> float -> float := SFadd prec emax.
Definition fmul : float -> float -> float := SFmul prec emax.

(** [a < b], [a <= b], [a >= b] on floats; all three are [False] as soon as
    one side is NaN. *)
Definition flt : float -> float -> bool := SFltb.
Definition fle : float -> float -> bool := SFleb.
Definition fge (a b : float) : bool := SFleb b a.

Definition is_nan (x : float) : bool :=
  match x with S754_nan => true | _ => false end.

Definition is_inf (x : float) : bool :=
  match x with S754_infinity _ => true | _ => false end.

(** [math.isfinite] *)
Definition is_finite (x : float) : bool :=
  match x with S754_zero _ | S754_finite _ _ _ => true | _ => false end.

(** [float(z)] for an integer, as the mixed operators [int + float] and
    [int * float] convert their integer operand. *)
Definition of_int (z : Z) : float := binary_normalize prec emax z 0 false.

(** The double nearest to [(-1)^s * n / d] (ties to even): how a decimal
    literal or a decimal string is read. *)
Definition nearest_ratio (s : bool) (n d : positive) : float :=
  let '(q, e, l) := SFdiv_core_binary prec emax (Zpos n) 0 (Zpos d) 0 in
  binary_round_aux prec emax s q e l.

(** The literal [2.5]. *)
Definition lit_2_5 : float := nearest_ratio false 25 10.

(** The integer nearest to [m * 2^e * scale], ties to even: the digits that
    correctly rounded decimal conversion keeps. *)
Definition scaled_half_even (m : positive) (e : Z) (scale : Z) : Z :=
  match e with
  | Zneg p =>
      let den := Z.pow 2 (Zpos p) in
      let num := Zpos m * scale in
      let q := num / den in
      let r := num mod den in
      match Z.compare (2 * r) den with
      | Lt => q
      | Gt => q + 1
      | Eq => if Z.even q then q else q + 1
      end
  | _ => Zpos m * Z.pow 2 e * scale
  end.

(** Halving with the remainder rounded to nearest, ties to even: what
    rounding does to a mantissa that is one bit too long. *)
Definition half_even (x : Z) : Z :=
  if Z.odd x && Z.odd (x / 2) then x / 2 + 1 else x / 2.

(** [NDIGITS_MAX] of [floatobject.c]: beyond it [round] returns its
    argument. *)
Definition NDIGITS_MAX : N := 323.

(** [round(x, ndigits)] for [ndigits >= 0].  NaN, the infinities and the
    zeros round to themselves.  A finite [x] is converted to the decimal
    string with [ndigits] digits after the point that is nearest to it (ties
    to even) and the string is read back as the nearest double; when that
    reading overflows, [OverflowError] is raised. *)
Definition py_round (x : float) (ndigits : N) : result float :=
  match x with
  | S754_finite s m e =>
      if (NDIGITS_MAX <? ndigits)%N then Ok x
      else
        let scale := Z.pow 10 (Z.of_N ndigits) in
        match scaled_half_even m e scale with
        | Zpos n =>
            let r := nearest_ratio s n (Z.to_pos scale) in
            if is_inf r then Raise OverflowError else Ok r
        | _ => Ok (S754_zero s)
        end
  | _ => Ok x
  end.

(** [random.random()]: [k / 2^53] for the 53 random bits [k] the generator
    delivers, a double in [[0.0, 1.0)]. *)
Definition random_float (k : Z) : float :=
  binary_normalize prec emax (k mod 2 ^ 53) (-53) false.

(** [random.uniform(a, b)] is [a + (b - a) * self.random()]; with integer
    [a] and [b] the difference is an integer and both operators convert
    their integer operand. *)
Definition uniform (a b : Z) (r : float) : float :=
  fadd (of_int a) (fmul (of_int (b - a)) r).

End PyFloat.
Export PyFloat.

(* ================================================================== *)
(** ** Values decoded from the search response ([r.json()]) *)

Inductive pyval :=
| PNone
| PBool (b : bool)
| PInt (z : Z)
| PFloat (x : float)
| PStr (s : str)
| PList (l : list pyval)
| PDict (d : list (str * pyval)).

(** A [dict] is kept as an association list read at its first match. *)
Fixpoint lookup (k : str) (d : list (str * pyval)) : option pyval :=
  match d with
  | [] => None
  | (k', v) :: d' => if PyStr.eqb k k' then Some v else lookup k d'
  end.

(** [bool(v)] *)
Definition truthy (v : pyval) : bool :=
  match v with
  | PNone => false
  | PBool b => b
  | PInt z => negb (z =? 0)
  | PFloat x => match x with S754_zero _ => false | _ => true end
  | PStr s => nonempty s
  | PList l => match l with [] => false | _ => true end
  | PDict d => match d with [] => false | _ => true end
  end.

(** [a or b] *)
Definition py_or (a b : pyval) : pyval := if truthy a then a else b.

(** [v[key]] for a string key: only a [dict] can be indexed that way. *)
Definition getitem (v : pyval) (key : string) : result pyval :=
  match v with
  | PDict d => match lookup (lit key) d with
               | Some x => Ok x
               | None => Raise KeyError
               end
  | _ => Raise TypeError
  end.

(** [v.get(key, default)]: a method of [dict] alone. *)
Definition dict_get (v : pyval) (key : string) (default : pyval)
  : result pyval :=
  match v with
  | PDict d => match lookup (lit key) d with
               | Some x => Ok x
               | None => Ok default
               end
  | _ => Raise AttributeError
  end.

(** [for x in v]: the items of a list, the keys of a dict, the characters
    of a string. *)
Definition py_iter (v : pyval) : result (list pyval) :=
  match v with
  | PList l => Ok l
  | PDict d =>
      Ok (List.map PStr (nodup (list_eq_dec N.eq_dec) (List.map fst d)))
  | PStr s => Ok (List.map (fun c => PStr [c]) s)
  | _ => Raise TypeError
  end.

(* ================================================================== *)
(** ** Image records

    The dict built by [fetch_unsplash_images]; the key ["score"] is absent
    until the scoring loop assigns it. *)

Record image_record := {
  title : pyval;
  url : pyval;
  author : pyval;
  link : pyval;
  score : option float
}.

(** [img["score"] = x] *)
Definition set_score (img : image_record) (x : float) : image_record :=
  {| title := title img; url := url img; author := author img;
     link := link img; score := Some x |}.

(** [img["score"]] *)
Definition get_score (img : image_record) : result float :=
  match score img with
  | Some x => Ok x
  | None => Raise KeyError
  end.

(* ================================================================== *)
(** ** The outside world and the script's effects *)

(** A decoded image, as the RGB raster [convert("RGB")] returns. *)
Record image := {
  size : N * N;
  pixels : list (N * N * N)
}.

(** What [requests.get] returns for the search request. *)
Record response := {
  status_code : Z;
  json : result pyval
}.

Record world := {
  (** [st.secrets.get("UNSPLASH_ACCESS_KEY")] *)
  secrets_UNSPLASH_ACCESS_KEY : option str;
  (** the values of the two widgets *)
  multiselect : list str;
  text_input : str;
  (** [requests.get(url, params)] on the search endpoint, by query,
      [per_page] and [client_id] *)
  requests_get_search : str -> Z -> str -> result response;
  (** [requests.get(image_url, timeout=10).content] *)
  requests_get_content : pyval -> result (list Byte.byte);
  (** [Image.open(BytesIO(content)).convert("RGB")] *)
  image_open_rgb : list Byte.byte -> result image;
  (** processor, forward pass and [logits_per_image.item()] *)
  clip_logit : image -> result float;
  (** [load_clip_model()] *)
  from_pretrained : result unit;
  (** what [st.image] does with its source: it shows it, or raises (a
      string that is neither an http, https or data URL nor a file that can
      be read, a value that is no image) *)
  st_image : pyval -> result unit;
  (** the 53 random bits behind the [n]-th call of [random.random()] that
      the scorer makes *)
  random_bits : nat -> Z
}.

Inductive page_element :=
| PageConfig | Styles | Title | Caption | ChooseHeading
| Multiselect | TextInput.

Inductive message :=
| MissingKey                                  (* "Missing Unsplash API key." *)
| UnsplashError (query : str) (status : Z)    (* "Unsplash error for ..." *)
| NoImagesFor (topic : str)                   (* "No images for ..." *)
| ChooseAtLeastOne                            (* "Choose at least one ..." *)
| FetchingLooksFor (topics : list str)        (* "Fetching looks for ..." *)
| PoweredBy.                                  (* "Powered by ..." *)

(** What the script does to the outside, in order.  A caption is kept as
    the three values its f-string interpolates. *)
Inductive event :=
| St_page (el : page_element)
| St_error (m : message)
| St_warning (m : message)
| St_info (m : message)
| St_success (m : message)
| St_topic_header (topic : str)
| St_image (img_url : pyval) (img_score : float) (img_author img_link : pyval)
| Http_search (query : str) (per_page : Z) (client_id : str)
| Http_image (image_url : pyval)
| Load_clip_model.

(** A network request. *)
Definition is_network (e : event) : bool :=
  match e with
  | Http_search _ _ _ | Http_image _ | Load_clip_model => true
  | _ => false
  end.

Record state := {
  trace : list event;
  draws : nat
}.

Definition initial : state := {| trace := []; draws := 0 |}.

(** Computations: they read and extend the state, and return or raise. *)
Definition M (A : Type) : Type := state -> result A * state.

Definition ret {A} (a : A) : M A := fun s => (Ok a, s).

Definition raise {A} (e : exn) : M A := fun s => (Raise e, s).

Definition bind {A B} (c : M A) (k : A -> M B) : M B :=
  fun s => match c s with
           | (Ok a, s') => k a s'
           | (Raise e, s') => (Raise e, s')
           end.

Definition lift {A} (r : result A) : M A := fun s => (r, s).

Definition emit (e : event) : M unit :=
  fun s => (Ok tt, {| trace := trace s ++ [e]; draws := draws s |}).

Declare Scope py_scope.
Delimit Scope py_scope with py.
Notation "x <- c ;; k" := (bind c (fun x => k))
  (at level 61, c at next level, right associativity) : py_scope.
Notation "c ;; k" := (bind c (fun _ => k))
  (at level 61, right associativity) : py_scope.
Local Open Scope py_scope.

(** [try: body / except Exception: handler] *)
Definition try_except_Exception {A} (body handler : M A) : M A :=
  fun s => match body s with
           | (Raise e, s') =>
               if isinstance_Exception e then handler s' else (Raise e, s')
           | r => r
           end.

(** A loop [for x in l: f(x)] that collects what [f] returns. *)
Fixpoint mapM {A B} (f : A -> M B) (l : list A) : M (list B) :=
  match l with
  | [] => ret []
  | x :: l' => y <- f x ;; ys <- mapM f l' ;; ret (y :: ys)
  end.

(** A loop [for x in l: f(x)] run for its effects. *)
Fixpoint forM_ {A} (f : A -> M unit) (l : list A) : M unit :=
  match l with
  | [] => ret tt
  | x :: l' => f x ;; forM_ f l'
  end.

(* ================================================================== *)
(** ** Sorting

    [sorted(l, key=..., reverse=True)] computes every key once, reverses the
    list, sorts it stably in ascending order with [<] on the keys, and
    reverses the result.  The stable ascending sort is written as an
    insertion sort.  When no key is NaN, [<] orders the keys totally and
    every stable sort, CPython's included, returns the same list; with a NaN
    key the list CPython returns is still a rearrangement of the input, but
    its order depends on the run detection and the binary insertion of its
    sort and may differ from the one computed here.  The properties that
    speak of the order of the result are stated for keys without NaN. *)

Section Sorted.
Context {A : Type}.
Variable key : A -> float.

(** [x] stood to the left of every element of [l]: it stays to the left of
    the elements that are not smaller. *)
Fixpoint insert (x : A) (l : list A) : list A :=
  match l with
  | [] => [x]
  | y :: l' => if flt (key y) (key x) then y :: insert x l' else x :: y :: l'
  end.

Definition sort_ascending (l : list A) : list A :=
  fold_right insert [] l.

Definition sorted (reverse : bool) (l : list A) : list A :=
  if reverse then rev (sort_ascending (rev l)) else sort_ascending l.

(** [a] may stand before [b] in an ascending list. *)
Definition not_after (a b : A) : Prop := flt (key b) (key a) = false.

(** [a] may stand before [b] in a descending list. *)
Definition not_before (a b : A) : Prop := flt (key a) (key b) = false.

(** No element of [l] selected by [P] has a key smaller than that of
    another. *)
Definition ties (P : A -> bool) (l : list A) : Prop :=
  forall a b, In a l -> In b l -> P a = true -> P b = true ->
              flt (key a) (key b) = false.

(** Every element of [l] is [R]-related to the next one. *)
Fixpoint chain (R : A -> A -> Prop) (l : list A) : Prop :=
  match l with
  | a :: (b :: _) as l' => R a b /\ chain R l'
  | _ => True
  end.
End Sorted.

(* ================================================================== *)
(** ** The script *)

Section Script.
Variable w : world.

(** Image Source Client (lines 29-52)
<<
def fetch_unsplash_images(query, count=10):
  if not UNSPLASH_ACCESS_KEY:
      st.error("Missing Unsplash API key.")
      return []
  ...
  r = requests.get(url, params=params)
  if r.status_code != 200:
      st.warning(f"Unsplash error for '{query}': {r.status_code}")
      return []
  data = r.json()
  return [{"title": img["alt_description"] or "Untitled", ...}
          for img in data.get("results", [])]
>>
    The body is what runs when the memoising decorator has no entry for
    the arguments. *)

Definition UNSPLASH_ACCESS_KEY : option str := secrets_UNSPLASH_ACCESS_KEY w.

Definition requests_get (query : str) (count : Z) (client_id : str)
  : M response :=
  emit (Http_search query count client_id) ;;
  lift (requests_get_search w query count client_id).

Definition record_of_result (img : pyval) : result image_record :=
  rbind (getitem img "alt_description") (fun alt =>
  rbind (getitem img "urls") (fun urls =>
  rbind (getitem urls "regular") (fun regular =>
  rbind (getitem img "user") (fun user =>
  rbind (getitem user "name") (fun name =>
  rbind (getitem img "links") (fun links =>
  rbind (getitem links "html") (fun html =>
  Ok {| title := py_or alt (PStr (lit "Untitled"));
        url := regular;
        author := name;
        link := html;
        score := None |}))))))).

Definition records_of_data (data : pyval) : result (list image_record) :=
  rbind (dict_get data "results" (PList [])) (fun results =>
  rbind (py_iter results) (fun imgs =>
  rmap record_of_result imgs)).

Definition fetch_unsplash_images (query : str) (count : Z)
  : M (list image_record) :=
  match UNSPLASH_ACCESS_KEY with
  | None | Some [] =>
      emit (St_error MissingKey) ;;
      ret []
  | Some client_id =>
      r <- requests_get query count client_id ;;
      if negb (status_code r =? 200) then
        emit (St_warning (UnsplashError query (status_code r))) ;;
        ret []
      else
        data <- lift (json r) ;;
        lift (records_of_data data)
  end.

(** Aesthetic Scorer (lines 60-70)
<<
def compute_aesthetic_score(model, processor, image_url):
  try:
      image = Image.open(BytesIO(requests.get(image_url, timeout=10).content)).convert("RGB")
      inputs = processor(text=[...], images=image, return_tensors="pt", padding=True)
      outputs = model(inputs...)
      score = outputs.logits_per_image.item()
      return round(5 + score * 2.5, 2)
  except Exception:
      return random.uniform(3,7)
>> *)

Definition download (image_url : pyval) : M (list Byte.byte) :=
  emit (Http_image image_url) ;;
  lift (requests_get_content w image_url).

(** What the first three steps of the [try] block give: the logit, or the
    exception that one of them raised. *)
Definition raw_logit (image_url : pyval) : result float :=
  rbind (requests_get_content w image_url) (fun content =>
  rbind (image_open_rgb w content) (fun image =>
  clip_logit w image)).

(** [5 + score * 2.5] *)
Definition affine (logit : float) : float :=
  fadd (of_int 5) (fmul logit lit_2_5).

(** What the whole [try] block gives. *)
Definition attempt (image_url : pyval) : result float :=
  rbind (raw_logit image_url) (fun logit => py_round (affine logit) 2).

Definition random_uniform (a b : Z) : M float :=
  fun s =>
    (Ok (uniform a b (random_float (random_bits w (draws s)))),
     {| trace := trace s; draws := S (draws s) |}).

Definition compute_aesthetic_score (image_url : pyval) : M float :=
  try_except_Exception
    (content <- download image_url ;;
     image <- lift (image_open_rgb w content) ;;
     score <- lift (clip_logit w image) ;;
     lift (py_round (fadd (of_int 5) (fmul score lit_2_5)) 2))
    (random_uniform 3 7).

(** Score, rank and display (lines 107-115)
<<
      for img in images:
          img["score"] = compute_aesthetic_score(model, processor, img["url"])
      ranked = sorted(images, key=lambda x: x["score"], reverse=True)
  for img in ranked[:5]:
      st.image(img["url"], caption=f"... {img['score']} ... {img['author']} ... {img['link']} ...")
>> *)

Definition score_image (img : image_record) : M image_record :=
  x <- compute_aesthetic_score (url img) ;;
  ret (set_score img x).

Definition score_all (images : list image_record) : M (list image_record) :=
  mapM score_image images.

Definition ranked (images : list image_record)
  : result (list image_record) :=
  rbind (rmap get_score images) (fun keys =>
  Ok (List.map snd (sorted fst true (combine keys images)))).

(** The arguments are evaluated, then [st.image] is called: it raises, or
    the image is shown. *)
Definition show_image (img : image_record) : M unit :=
  x <- lift (get_score img) ;;
  lift (st_image w (url img)) ;;
  emit (St_image (url img) x (author img) (link img)).

Definition display (ranked_images : list image_record) : M unit :=
  forM_ show_image (firstn 5 ranked_images).

(** The loop body (lines 100-115) *)
Definition process_topic (topic : str) : M unit :=
  emit (St_topic_header topic) ;;
  images <- fetch_unsplash_images topic 10 ;;
  match images with
  | [] => emit (St_warning (NoImagesFor topic))
  | _ =>
      scored <- score_all images ;;
      ranked_images <- lift (ranked scored) ;;
      display ranked_images
  end.

(** Topic Selector (lines 86-87)
<<
custom_topics = [t.strip() for t in custom_text.split(",") if t.strip()]
selected_topics = predefined + custom_topics
>> *)
Definition custom_topics (custom_text : str) : list str :=
  List.map strip
    (List.filter (fun t => nonempty (strip t)) (split comma custom_text)).

Definition selected_topics (predefined : list str) (custom_text : str)
  : list str :=
  predefined ++ custom_topics custom_text.

Definition st_stop {A} : M A := raise StopException.

Definition load_clip_model : M unit :=
  emit Load_clip_model ;;
  lift (from_pretrained w).

Definition header : list page_element :=
  [PageConfig; Styles; Title; Caption; ChooseHeading; Multiselect; TextInput].

(** The whole page, top to bottom. *)
Definition script : M unit :=
  forM_ (fun el => emit (St_page el)) header ;;
  let predefined := multiselect w in
  let custom_text := text_input w in
  let topics := selected_topics predefined custom_text in
  match topics with
  | [] =>
      emit (St_info ChooseAtLeastOne) ;;
      st_stop
  | _ =>
      emit (St_success (FetchingLooksFor topics)) ;;
      load_clip_model ;;
      forM_ process_topic topics ;;
      emit (St_info PoweredBy)
  end.

End Script.

(* ================================================================== *)
(** ** Notions used in the statements *)

(** The [st.image] call the Presenter makes for a scored record. *)
Definition image_event (img : image_record) (x : float) : event :=
  St_image (url img) x (author img) (link img).

Definition is_image (e : event) : bool :=
  match e with
  | St_image _ _ _ _ => true
  | _ => false
  end.

(** How many images a trace shows. *)
Definition images_shown (t : list event) : nat :=
  List.length (filter is_image t).

(** A computation that shows no image, whatever it returns or raises. *)
Definition shows_nothing {A} (c : M A) : Prop :=
  forall s, exists added,
    trace (snd (c s)) = trace s ++ added /\ images_shown added = 0%nat.

(** A computation that shows at most [n] images. *)
Definition shows_at_most {A} (n : nat) (c : M A) : Prop :=
  forall s, exists added,
    trace (snd (c s)) = trace s ++ added /\ (images_shown added <= n)%nat.

(* ================================================================== *)
(** ** A sample run

    One world to evaluate the script in: the search answers every topic
    with three results; the first image cannot be downloaded, the second
    gets the logit 0.125, the model answers the third with NaN. *)

Definition sample_item (alt : pyval) (u : string) : pyval :=
  PDict [(lit "alt_description", alt);
         (lit "urls", PDict [(lit "regular", PStr (lit u))]);
         (lit "user", PDict [(lit "name", PStr (lit "ann"))]);
         (lit "links", PDict [(lit "html", PStr (lit "page"))])].

Definition sample_body : pyval :=
  PDict [(lit "results",
          PList [sample_item PNone "a";
                 sample_item (PStr (lit "sunset")) "b";
                 sample_item (PStr []) "c"])].

Definition sample_content (image_url : pyval) : result (list Byte.byte) :=
  match image_url with
  | PStr u =>
      if PyStr.eqb u (lit "a") then Raise RequestException
      else if PyStr.eqb u (lit "b") then Ok [Byte.x01]
      else Ok [Byte.x02]
  | _ => Raise TypeError
  end.

Definition sample_decode (content : list Byte.byte) : result image :=
  match content with
  | [b] => Ok {| size := (1, 1)%N; pixels := [(Byte.to_N b, 0, 0)%N] |}
  | _ => Raise UnidentifiedImageError
  end.

(** 0.125, 5.3125 and 5.31 as doubles. *)
Definition f_0_125 : float := nearest_ratio false 1 8.
Definition f_5_3125 : float := nearest_ratio false 85 16.
Definition f_5_31 : float := nearest_ratio false 531 100.

Definition sample_logit (im : image) : result float :=
  match pixels im with
  | [(1, _, _)%N] => Ok f_0_125
  | _ => Ok S754_nan
  end.

(** [s] starts with [prefix]. *)
Fixpoint starts_with (prefix s : str) : bool :=
  match prefix, s with
  | [], _ => true
  | c :: prefix', d :: s' => (c =? d)%N && starts_with prefix' s'
  | _ :: _, [] => false
  end.

(** In the sample world no file can be read: [st.image] shows the http,
    https and data URLs and raises for everything else. *)
Definition sample_st_image (source : pyval) : result unit :=
  match source with
  | PStr u =>
      if starts_with (lit "http://") u || starts_with (lit "https://") u
         || starts_with (lit "data:") u
      then Ok tt else Raise MediaFileStorageError
  | _ => Raise TypeError
  end.

Definition sample_world : world := {|
  secrets_UNSPLASH_ACCESS_KEY := Some (lit "key");
  multiselect := [lit "vintage style"];
  text_input := lit " boho , ,vintage style";
  requests_get_search := fun _ _ _ =>
    Ok {| status_code := 200; json := Ok sample_body |};
  requests_get_content := sample_content;
  image_open_rgb := sample_decode;
  clip_logit := sample_logit;
  from_pretrained := Ok tt;
  st_image := sample_st_image;
  random_bits := fun n => Z.of_nat n + 5
|}.

(** The same page with no secret, nothing selected and only commas and
    blanks typed. *)
Definition idle_world : world := {|
  secrets_UNSPLASH_ACCESS_KEY := None;
  multiselect := [];
  text_input := lit " , ,";
  requests_get_search := requests_get_search sample_world;
  requests_get_content := sample_content;
  image_open_rgb := sample_decode;
  clip_logit := sample_logit;
  from_pretrained := Ok tt;
  st_image := sample_st_image;
  random_bits := fun n => Z.of_nat n + 5
|}.

(** The sample world with another answer to the search and another outcome
    of the model load. *)
Definition variant_world (search : str -> Z -> str -> result response)
  (load : result unit) : world := {|
  secrets_UNSPLASH_ACCESS_KEY := Some (lit "key");
  multiselect := [lit "vintage style"];
  text_input := lit " boho , ,vintage style";
  requests_get_search := search;
  requests_get_content := sample_content;
  image_open_rgb := sample_decode;
  clip_logit := sample_logit;
  from_pretrained := load;
  st_image := sample_st_image;
  random_bits := fun n => Z.of_nat n + 5
|}.


(** A result without the field [urls]. *)
Definition broken_item : pyval :=
  PDict [(lit "alt_description", PNone);
         (lit "user", PDict [(lit "name", PStr (lit "ann"))]);
         (lit "links", PDict [(lit "html", PStr (lit "page"))])].

Definition broken_body : pyval :=
  PDict [(lit "results", PList [sample_item PNone "a"; broken_item])].

(** The records the client builds from [sample_body]. *)
Definition sample_record (t : pyval) (u : string) : image_record :=
  {| title := t; url := PStr (lit u); author := PStr (lit "ann");
     link := PStr (lit "page"); score := None |}.

Definition record_a : image_record := sample_record (PStr (lit "Untitled")) "a".
Definition record_b : image_record := sample_record (PStr (lit "sunset")) "b".
Definition record_c : image_record := sample_record (PStr (lit "Untitled")) "c".

(** Ten scored records, with the scores 1.0 to 10.0. *)
Definition ten_scores : list float :=
  List.map of_int [1; 2; 3; 4; 5; 6; 7; 8; 9; 10].

Definition ten_records : list image_record :=
  List.map (set_score record_b) ten_scores.

(** Ten scored records whose image is at an https URL. *)
Definition web_record : image_record :=
  sample_record (PStr (lit "sunset")) "https://images.example/b".

Definition ten_web_records : list image_record :=
  List.map (set_score web_record) ten_scores.

(* ================================================================== *)
(** ** Notions used in the further properties *)

(** A computation that adds to the trace nothing but events satisfying
    [P], whatever it returns or raises. *)
Definition emits {A} (P : event -> Prop) (c : M A) : Prop :=
  forall s, exists added,
    trace (snd (c s)) = trace s ++ added /\ Forall P added.

(** The topics whose header a trace shows, in order. *)
Definition topic_headers (t : list event) : list str :=
  flat_map (fun e => match e with St_topic_header topic => [topic] | _ => [] end)
           t.

(** A search request is for one of [topics], asks for ten results and
    carries the configured, non-empty credential. *)
Definition search_is_for (w : world) (topics : list str) (e : event) : Prop :=
  match e with
  | Http_search query per_page client_id =>
      In query topics /\ per_page = 10
      /\ secrets_UNSPLASH_ACCESS_KEY w = Some client_id /\ client_id <> []
  | _ => True
  end.

(** What the pass over [topic] may add to the trace after its header: no
    further header, and no search but the one for [topic], for ten results,
    with the configured, non-empty credential. *)
Definition inner_event (w : world) (topic : str) (e : event) : Prop :=
  match e with
  | St_topic_header _ => False
  | Http_search query per_page client_id =>
      query = topic /\ per_page = 10
      /\ secrets_UNSPLASH_ACCESS_KEY w = Some client_id /\ client_id <> []
  | _ => True
  end.

(** An event that is not a topic header. *)
Definition no_header (e : event) : Prop :=
  match e with St_topic_header _ => False | _ => True end.

(** A finite double of magnitude below [2^1019]: a zero, or a mantissa of at
    most 53 bits with an exponent of at most 966. *)
Definition moderate (x : float) : bool :=
  match x with
  | S754_zero _ => true
  | S754_finite _ m e => (Zpos m <? 2 ^ 53) && (e <=? 966)
  | _ => false
  end.

(** The [try] block of the scorer raises for this record. *)
Definition attempt_fails (w : world) (img : image_record) : bool :=
  match attempt w (url img) with
  | Raise _ => true
  | Ok _ => false
  end.

(** [sep.join(pieces)] for a separator of any length. *)
Fixpoint join_str (sep : str) (pieces : list str) : str :=
  match pieces with
  | [] => []
  | [p] => p
  | p :: ps => p ++ sep ++ join_str sep ps
  end.

(** The text interpolated in the banner of line 94,
    [', '.join(selected_topics)]. *)
Definition banner_text (topics : list str) : str :=
  join_str (lit ", ") topics.

(** A topic as the free-text parser delivers them: not empty, without a
    comma, and unchanged by [strip]. *)
Definition well_formed (t : str) : Prop :=
  t <> [] /\ ~ In comma t /\ strip t = t.

(** Whitespace or a comma. *)
Definition blank_or_comma (c : char) : bool :=
  isspace c || (c =? comma)%N.

(* ================================================================== *)
(** * Properties *)

(** ** Strings *)

Lemma split_nonempty sep s : split sep s <> [].
Proof.
  destruct s as [| c s]; cbn [split]; [discriminate |].
  destruct (c =? sep)%N; [discriminate |].
  destruct (split sep s); discriminate.
Qed.

Lemma join_cons_piece sep c p ps :
  join sep ((c :: p) :: ps) = c :: join sep (p :: ps).
Proof. destruct ps; reflexivity. Qed.

(** Joining the pieces with the separator gives the text back. *)
Lemma join_split sep s : join sep (split sep s) = s.
Proof.
  induction s as [| c s IH]; [reflexivity |].
  cbn [split]. destruct (N.eqb_spec c sep) as [-> | Hne].
  - pose proof (split_nonempty sep s) as Hs.
    destruct (split sep s) as [| p ps]; [contradiction |].
    change (join sep ([] :: p :: ps)) with (sep :: join sep (p :: ps)).
    f_equal. exact IH.
  - pose proof (split_nonempty sep s) as Hs.
    destruct (split sep s) as [| p ps]; [contradiction |].
    rewrite join_cons_piece. f_equal. exact IH.
Qed.

(** No piece holds the separator. *)
Lemma split_no_sep sep s : Forall (fun p => ~ In sep p) (split sep s).
Proof.
  induction s as [| c s IH]; cbn [split].
  - constructor; [intros [] | constructor].
  - destruct (N.eqb_spec c sep) as [-> | Hne].
    + constructor; [intros [] | assumption].
    + destruct (split sep s) as [| p ps].
      * constructor; [| constructor]. intros [H | []]. congruence.
      * inversion IH as [| ? ? Hp Hps]; subst.
        constructor; [| assumption]. intros [H | H]; [congruence | auto].
Qed.

(** [lstrip] removes a run of whitespace from the left and stops at the
    first other character. *)
Lemma lstrip_spec s :
  exists a, s = a ++ lstrip s
            /\ forallb isspace a = true
            /\ match lstrip s with [] => True | c :: _ => isspace c = false end.
Proof.
  induction s as [| c s (a & Hs & Ha & Hhd)]; cbn [lstrip].
  - exists []. repeat split.
  - destruct (isspace c) eqn:Ec.
    + exists (c :: a). cbn [app forallb]. rewrite Ec, Ha.
      repeat split; [now f_equal | assumption].
    + exists []. repeat split. assumption.
Qed.

Lemma lstrip_suffix_kept s c t :
  isspace c = false -> lstrip (s ++ c :: t) = lstrip s ++ c :: t.
Proof.
  intros Hc. induction s as [| x s IH]; cbn [lstrip app].
  - now rewrite Hc.
  - destruct (isspace x); [assumption | reflexivity].
Qed.

Lemma lstrip_all_space s : forallb isspace s = true -> lstrip s = [].
Proof.
  induction s as [| c s IH]; cbn [forallb lstrip]; [reflexivity |].
  intros H. apply andb_true_iff in H as [-> H]. auto.
Qed.

(** [strip] removes whitespace, and nothing else, from both ends; what is
    left is empty or starts and ends with a character that is not
    whitespace. *)
Lemma strip_spec s :
  exists a b, s = a ++ strip s ++ b
              /\ forallb isspace a = true
              /\ forallb isspace b = true
              /\ match strip s with
                 | [] => True
                 | c :: _ => isspace c = false
                             /\ isspace (last (strip s) c) = false
                 end.
Proof.
  destruct (lstrip_spec s) as (a & Hs & Ha & Hhd).
  destruct (lstrip_spec (rev (lstrip s))) as (b' & Hr & Hb & Hlast).
  unfold strip, rstrip.
  set (u := lstrip (rev (lstrip s))) in *.
  assert (Hl : lstrip s = rev u ++ rev b').
  { rewrite <- rev_app_distr, <- Hr. now rewrite rev_involutive. }
  exists a, (rev b'). repeat split.
  - now rewrite <- Hl.
  - assumption.
  - rewrite forallb_forall in *. intros x Hx. apply Hb. now apply in_rev.
  - destruct (rev u) as [| c t] eqn:Eu; [exact I |].
    split.
    + rewrite Hl in Hhd. exact Hhd.
    + destruct u as [| z u']; [discriminate |].
      cbn [rev] in Eu. rewrite <- Eu, last_last. exact Hlast.
Qed.

(** ** Topic Selector *)

Lemma custom_topics_In custom_text t :
  In t (custom_topics custom_text)
  <-> t <> [] /\ exists piece, In piece (split comma custom_text)
                               /\ t = strip piece.
Proof.
  unfold custom_topics. rewrite in_map_iff. split.
  - intros (piece & <- & Hin). apply filter_In in Hin as [Hin Hne].
    split; [| now exists piece].
    destruct (strip piece); [discriminate | discriminate].
  - intros (Hne & piece & Hin & ->). exists piece. split; [reflexivity |].
    apply filter_In. split; [assumption |].
    destruct (strip piece); [contradiction | reflexivity].
Qed.

(** C1, as the script has it.  The selected topics are the predefined
    selection followed by the free-text topics, in order and with every
    repetition kept: a topic is selected exactly when it is a predefined
    choice or the non-empty, whitespace-trimmed form of one of the pieces
    between the commas of the free text. *)
Theorem selected_topics_concatenates (predefined : list str) (custom_text : str) :
  let pieces := split comma custom_text in
  let topics := selected_topics predefined custom_text in
  firstn (List.length predefined) topics = predefined
  /\ skipn (List.length predefined) topics = custom_topics custom_text
  /\ List.length topics
     = (List.length predefined
        + List.length (filter (fun p => nonempty (strip p)) pieces))%nat
  /\ (forall t, In t topics
                <-> In t predefined
                    \/ (t <> [] /\ exists piece, In piece pieces
                                                 /\ t = strip piece))
  /\ join comma pieces = custom_text
  /\ Forall (fun piece => ~ In comma piece) pieces.
Proof.
  cbv zeta. unfold selected_topics. repeat split.
  - rewrite firstn_app, Nat.sub_diag, firstn_all. cbn [firstn].
    apply app_nil_r.
  - rewrite skipn_app, Nat.sub_diag, skipn_all. reflexivity.
  - rewrite length_app. unfold custom_topics. now rewrite length_map.
  - intros Hin. apply in_app_or in Hin as [H | H]; [now left | right].
    now apply custom_topics_In.
  - intros [H | H]; apply in_or_app; [now left | right].
    now apply custom_topics_In.
  - apply join_split.
  - apply split_no_sep.
Qed.

(** C1, as the claim words it, fails: a topic that is both selected and
    typed appears twice. *)
Lemma selected_topics_keeps_duplicates :
  selected_topics [lit "street style"] (lit " street style , boho")
  = [lit "street style"; lit "street style"; lit "boho"]
  /\ ~ NoDup (selected_topics [lit "street style"]
                              (lit " street style , boho")).
Proof.
  split; [reflexivity |].
  intros H. inversion H as [| x l Hnotin _]; subst.
  apply Hnotin. left. reflexivity.
Qed.

(** ** Order on floats *)

Lemma SFcompare_antisym (a b : float) :
  SFcompare a b = option_map CompOpp (SFcompare b a).
Proof.
  destruct a as [sa | sa | | sa ma ea], b as [sb | sb | | sb mb eb];
    cbn [SFcompare option_map];
    try reflexivity;
    try (destruct sa; reflexivity);
    try (destruct sb; reflexivity);
    try (destruct sa, sb; reflexivity).
  rewrite (Z.compare_antisym ea eb).
  destruct sa, sb; try reflexivity;
    destruct (ea ?= eb); cbn [CompOpp]; try reflexivity.
  - rewrite (Pos.compare_cont_antisym mb ma Eq). reflexivity.
  - rewrite (Pos.compare_cont_antisym mb ma Eq). reflexivity.
Qed.

(** [<] is asymmetric, NaN or not. *)
Lemma flt_asym (a b : float) : flt a b = true -> flt b a = false.
Proof.
  unfold flt, SFltb. rewrite (SFcompare_antisym b a).
  destruct (SFcompare a b) as [[| |] |]; cbn; congruence.
Qed.

Lemma SFcompare_defined (a b : float) :
  is_nan a = false -> is_nan b = false -> exists c, SFcompare a b = Some c.
Proof.
  intros Ha Hb. destruct a, b; try discriminate; cbn [SFcompare]; eauto.
Qed.

(** Away from NaN the order is total: what is not smaller is greater or
    equal. *)
Lemma flt_false_fge (a b : float) :
  is_nan a = false -> is_nan b = false -> flt a b = false -> fge a b = true.
Proof.
  intros Ha Hb. unfold flt, fge, SFltb, SFleb.
  rewrite (SFcompare_antisym b a).
  destruct (SFcompare_defined a b Ha Hb) as [c ->].
  destruct c; cbn; congruence.
Qed.

(** ** Sorting *)

Section SortedFacts.
Context {A : Type}.
Variable key : A -> float.

Lemma insert_Permutation x l : Permutation (insert key x l) (x :: l).
Proof.
  induction l as [| y l IH]; cbn [insert]; [reflexivity |].
  destruct (flt (key y) (key x)); [| reflexivity].
  rewrite IH. apply perm_swap.
Qed.

Lemma sort_ascending_Permutation l : Permutation (sort_ascending key l) l.
Proof.
  induction l as [| x l IH]; cbn [sort_ascending fold_right]; [reflexivity |].
  fold (sort_ascending key l). rewrite insert_Permutation. now constructor.
Qed.

Lemma sorted_Permutation reverse l : Permutation (sorted key reverse l) l.
Proof.
  unfold sorted. destruct reverse.
  - rewrite <- Permutation_rev, sort_ascending_Permutation.
    symmetry. apply Permutation_rev.
  - apply sort_ascending_Permutation.
Qed.

Lemma insert_chain x l :
  chain (not_after key) l -> chain (not_after key) (insert key x l).
Proof.
  induction l as [| y l IH]; cbn [insert]; [intros _; exact I |].
  intros Hl. destruct (flt (key y) (key x)) eqn:E.
  - destruct l as [| z l'].
    + cbn. split; [| exact I]. unfold not_after. now apply flt_asym.
    + destruct Hl as [Hyz Hl]. specialize (IH Hl). cbn [insert] in *.
      destruct (flt (key z) (key x)).
      * split; assumption.
      * split; [| assumption]. unfold not_after. now apply flt_asym.
  - split; assumption.
Qed.

Lemma sort_ascending_chain l : chain (not_after key) (sort_ascending key l).
Proof.
  induction l as [| x l IH]; [exact I |].
  cbn [sort_ascending fold_right]. now apply insert_chain.
Qed.

Lemma chain_app_inv (R : A -> A -> Prop) l a b l' :
  chain R (l ++ a :: b :: l') -> chain R (l ++ [a]) /\ R a b /\ chain R (b :: l').
Proof.
  induction l as [| x l IH]; cbn [app].
  - intros [H1 H2]. repeat split; assumption.
  - intros H. destruct l as [| y l].
    + cbn [app] in *. destruct H as [Hxa H]. destruct (IH H) as (_ & Hab & Hb).
      repeat split; assumption.
    + cbn [app] in *. destruct H as [Hxy H]. destruct (IH H) as (Hc & Hab & Hb).
      repeat split; assumption.
Qed.

Lemma chain_snoc (R : A -> A -> Prop) l a b :
  chain R (l ++ [a]) -> R a b -> chain R (l ++ [a; b]).
Proof.
  induction l as [| x l IH]; cbn [app].
  - intros _ H. split; [assumption | exact I].
  - intros H Hab. destruct l as [| y l].
    + cbn [app] in *. destruct H as [Hxa _]. repeat split; assumption.
    + cbn [app] in *. destruct H as [Hxy H]. split; [assumption | auto].
Qed.

Lemma chain_rev l : chain (not_after key) l -> chain (not_before key) (rev l).
Proof.
  induction l as [| a l IH]; [intros _; exact I |].
  intros H. destruct l as [| b l]; [exact I |].
  destruct H as [Hab H]. specialize (IH H).
  cbn [rev] in *. rewrite <- app_assoc. cbn [app].
  apply chain_snoc; assumption.
Qed.

(** The list [sorted] returns with [reverse=True] never has an element
    followed by one with a greater key. *)
Lemma sorted_reverse_chain l : chain (not_before key) (sorted key true l).
Proof. unfold sorted. apply chain_rev, sort_ascending_chain. Qed.

Lemma chain_nth_error (R : A -> A -> Prop) l i a b :
  chain R l -> nth_error l i = Some a -> nth_error l (S i) = Some b -> R a b.
Proof.
  revert i. induction l as [| x l IH]; intros i H Ha Hb.
  - destruct i; discriminate.
  - destruct l as [| y l]; [destruct i as [| [|]]; discriminate |].
    destruct H as [Hxy H]. destruct i as [| i].
    + cbn in Ha, Hb. congruence.
    + apply (IH i); assumption.
Qed.
End SortedFacts.

(** ** Ranker *)

Lemma rmap_get_score_inv images keys :
  rmap get_score images = Ok keys ->
  List.map snd (combine keys images) = images
  /\ Forall (fun p => score (snd p) = Some (fst p)) (combine keys images).
Proof.
  revert keys. induction images as [| img images IH]; intros keys H.
  - cbn in H. injection H as <-. split; constructor.
  - cbn [rmap] in H. unfold get_score at 1 in H.
    destruct (score img) as [x |] eqn:Ex; [| discriminate].
    cbn [rbind] in H.
    destruct (rmap get_score images) as [ks | e]; [| discriminate].
    cbn [rbind] in H. injection H as <-.
    destruct (IH ks eq_refl) as [Hm Hf]. cbn [combine List.map snd].
    split; [now f_equal | constructor; [exact Ex | assumption]].
Qed.

Lemma rmap_get_score_total images :
  Forall (fun img => exists x, score img = Some x) images ->
  exists keys, rmap get_score images = Ok keys.
Proof.
  induction 1 as [| img images [x Hx] _ [ks IH]]; [now exists [] |].
  exists (x :: ks). cbn [rmap]. unfold get_score at 1.
  now rewrite Hx, IH.
Qed.

(** C3, as the script has it.  When every record has a score and none of the
    scores is NaN, [ranked] returns a rearrangement of the records in which
    each score is greater than or equal to the next one. *)
Theorem ranked_descending (images : list image_record) :
  Forall (fun img => exists x, score img = Some x /\ is_nan x = false) images ->
  exists out,
    ranked images = Ok out
    /\ Permutation out images
    /\ forall i a b,
         nth_error out i = Some a -> nth_error out (S i) = Some b ->
         exists x y, score a = Some x /\ score b = Some y /\ fge x y = true.
Proof.
  intros Hall.
  destruct (rmap_get_score_total images) as [keys Hk].
  { eapply Forall_impl; [| exact Hall]. intros img (x & Hx & _). eauto. }
  destruct (rmap_get_score_inv _ _ Hk) as [Hsnd Hinv].
  unfold ranked. rewrite Hk. cbn [rbind].
  set (pairs := combine keys images) in *.
  pose proof (sorted_Permutation fst true pairs) as Hperm.
  eexists. split; [reflexivity |]. split.
  - transitivity (List.map snd pairs); [now apply Permutation_map |].
    now rewrite Hsnd.
  - intros i a b Ha Hb.
    rewrite nth_error_map in Ha, Hb.
    destruct (nth_error (sorted fst true pairs) i) as [p |] eqn:Ep;
      [| discriminate].
    destruct (nth_error (sorted fst true pairs) (S i)) as [q |] eqn:Eq;
      [| discriminate].
    cbn in Ha, Hb. injection Ha as <-. injection Hb as <-.
    assert (Hgood : forall r, In r (sorted fst true pairs) ->
                      score (snd r) = Some (fst r) /\ is_nan (fst r) = false).
    { intros r Hr. apply (Permutation_in _ Hperm) in Hr.
      rewrite Forall_forall in Hinv. pose proof (Hinv r Hr) as Hs.
      split; [exact Hs |].
      assert (Hin : In (snd r) images).
      { rewrite <- Hsnd. now apply in_map. }
      rewrite Forall_forall in Hall.
      destruct (Hall _ Hin) as (x & Hx & Hnan). congruence. }
    destruct (Hgood p (nth_error_In _ _ Ep)) as [Hp Hpn].
    destruct (Hgood q (nth_error_In _ _ Eq)) as [Hq Hqn].
    exists (fst p), (fst q). repeat split; try assumption.
    apply flt_false_fge; try assumption.
    exact (chain_nth_error _ _ _ _ _ (sorted_reverse_chain fst pairs) Ep Eq).
Qed.

(** ** Presenter *)

Lemma images_shown_app t u :
  images_shown (t ++ u) = (images_shown t + images_shown u)%nat.
Proof. unfold images_shown. now rewrite filter_app, length_app. Qed.

Section Quiet.
Context {A B : Type}.

Lemma shows_nothing_ret (a : A) : shows_nothing (ret a).
Proof. intros s. exists []. cbn. now rewrite app_nil_r. Qed.

Lemma shows_nothing_lift (r : result A) : shows_nothing (lift r).
Proof. intros s. exists []. cbn. now rewrite app_nil_r. Qed.

Lemma shows_nothing_bind (c : M A) (k : A -> M B) :
  shows_nothing c -> (forall a, shows_nothing (k a)) ->
  shows_nothing (bind c k).
Proof.
  intros Hc Hk s. unfold bind.
  destruct (Hc s) as (t & Ht & Ht0).
  destruct (c s) as [[a | e] s'] eqn:E; cbn [snd] in *.
  - destruct (Hk a s') as (u & Hu & Hu0). exists (t ++ u).
    rewrite Hu, Ht, app_assoc, images_shown_app, Ht0, Hu0. now split.
  - exists t. now split.
Qed.

Lemma shows_nothing_try (body handler : M A) :
  shows_nothing body -> shows_nothing handler ->
  shows_nothing (try_except_Exception body handler).
Proof.
  intros Hb Hh s. unfold try_except_Exception.
  destruct (Hb s) as (t & Ht & Ht0).
  destruct (body s) as [[a | e] s'] eqn:E; cbn [snd] in *.
  - exists t. now split.
  - destruct (isinstance_Exception e).
    + destruct (Hh s') as (u & Hu & Hu0). exists (t ++ u).
      rewrite Hu, Ht, app_assoc, images_shown_app, Ht0, Hu0. now split.
    + exists t. now split.
Qed.

End Quiet.

Lemma shows_nothing_emit (e : event) :
  is_image e = false -> shows_nothing (emit e).
Proof.
  intros He s. exists [e]. cbn [emit snd trace]. split; [reflexivity |].
  unfold images_shown. cbn [filter]. now rewrite He.
Qed.

Lemma shows_nothing_mapM {A B} (f : A -> M B) (l : list A) :
  (forall a, shows_nothing (f a)) -> shows_nothing (mapM f l).
Proof.
  intros Hf. induction l as [| x l IH]; cbn [mapM].
  - apply shows_nothing_ret.
  - apply shows_nothing_bind; [apply Hf |]. intros y.
    apply shows_nothing_bind; [exact IH |]. intros ys.
    apply shows_nothing_ret.
Qed.

Lemma fetch_shows_nothing w query count :
  shows_nothing (fetch_unsplash_images w query count).
Proof.
  unfold fetch_unsplash_images, requests_get.
  destruct (UNSPLASH_ACCESS_KEY w) as [[| c key] |].
  - apply shows_nothing_bind; [now apply shows_nothing_emit |].
    intros _. apply shows_nothing_ret.
  - apply shows_nothing_bind.
    + apply shows_nothing_bind; [now apply shows_nothing_emit |].
      intros _. apply shows_nothing_lift.
    + intros r. destruct (negb (status_code r =? 200)).
      * apply shows_nothing_bind; [now apply shows_nothing_emit |].
        intros _. apply shows_nothing_ret.
      * apply shows_nothing_bind; [apply shows_nothing_lift |].
        intros data. apply shows_nothing_lift.
  - apply shows_nothing_bind; [now apply shows_nothing_emit |].
    intros _. apply shows_nothing_ret.
Qed.

Lemma random_uniform_shows_nothing w a b :
  shows_nothing (random_uniform w a b).
Proof. intros s. exists []. cbn. now rewrite app_nil_r. Qed.

Lemma compute_aesthetic_score_shows_nothing w image_url :
  shows_nothing (compute_aesthetic_score w image_url).
Proof.
  unfold compute_aesthetic_score, download.
  apply shows_nothing_try; [| apply random_uniform_shows_nothing].
  apply shows_nothing_bind.
  - apply shows_nothing_bind; [now apply shows_nothing_emit |].
    intros _. apply shows_nothing_lift.
  - intros content. apply shows_nothing_bind; [apply shows_nothing_lift |].
    intros image. apply shows_nothing_bind; [apply shows_nothing_lift |].
    intros x. apply shows_nothing_lift.
Qed.

Lemma score_all_shows_nothing w images :
  shows_nothing (score_all w images).
Proof.
  apply shows_nothing_mapM. intros img. unfold score_image.
  apply shows_nothing_bind; [apply compute_aesthetic_score_shows_nothing |].
  intros x. apply shows_nothing_ret.
Qed.

(** Showing a list of records: at most one image for each. *)
Lemma forM_show_image_trace w (l : list image_record) (s : state) :
  exists added,
    trace (snd (forM_ (show_image w) l s)) = trace s ++ added
    /\ (images_shown added <= List.length l)%nat.
Proof.
  revert s. induction l as [| img l IH]; intros s; cbn [forM_].
  - exists []. cbn. rewrite app_nil_r. split; [reflexivity | lia].
  - unfold bind at 1. unfold show_image at 1. unfold bind, lift, get_score.
    destruct (score img) as [x |];
      [| exists []; cbn; rewrite app_nil_r; split; [reflexivity | lia]].
    destruct (st_image w (url img)) as [[] | e];
      [| exists []; cbn; rewrite app_nil_r; split; [reflexivity | lia]].
    cbn [emit].
    match goal with
    | |- context [forM_ (show_image w) l ?s1] =>
        destruct (IH s1) as (u & Hu & Hn)
    end.
    exists (image_event img x :: u). rewrite Hu. cbn [trace].
    rewrite <- app_assoc. split; [reflexivity |].
    unfold images_shown in *. cbn [filter image_event is_image List.length].
    lia.
Qed.

(** When [st.image] accepts every source, every record is shown. *)
Lemma forM_show_image_scored w (l : list image_record) (xs : list float)
  (s : state) :
  Forall2 (fun img x => score img = Some x) l xs ->
  Forall (fun img => st_image w (url img) = Ok tt) l ->
  forM_ (show_image w) l s
  = (Ok tt, {| trace := trace s ++ List.map (fun p => image_event (fst p) (snd p))
                                            (combine l xs);
               draws := draws s |}).
Proof.
  intros H. revert s. induction H as [| img x l xs Hx _ IH]; intros s Hacc.
  - cbn. rewrite app_nil_r. now destruct s.
  - inversion Hacc as [| ? ? Himg Hl]; subst.
    cbn [forM_ combine List.map fst snd].
    unfold bind at 1. unfold show_image at 1. unfold bind, lift, get_score.
    rewrite Hx, Himg. cbn [emit]. rewrite (IH _ Hl). cbn [trace draws].
    now rewrite <- app_assoc.
Qed.

Lemma show_image_run w img x s :
  score img = Some x ->
  show_image w img s
  = match st_image w (url img) with
    | Ok _ => (Ok tt, {| trace := trace s ++ [image_event img x];
                         draws := draws s |})
    | Raise e => (Raise e, s)
    end.
Proof.
  intros Hx. unfold show_image, bind, lift, get_score. rewrite Hx.
  destruct (st_image w (url img)) as [[] | e]; reflexivity.
Qed.

(** Whatever [st.image] does, the images shown are an initial part of the
    records, in order, and all of them when the loop returns. *)
Lemma forM_show_image_prefix w (l : list image_record) (xs : list float)
  (s : state) :
  Forall2 (fun img x => score img = Some x) l xs ->
  exists k,
    snd (forM_ (show_image w) l s)
    = {| trace := trace s
                  ++ firstn k (List.map (fun p => image_event (fst p) (snd p))
                                 (combine l xs));
         draws := draws s |}
    /\ (fst (forM_ (show_image w) l s) = Ok tt -> k = List.length l).
Proof.
  intros H. revert s. induction H as [| img x l xs Hx _ IH]; intros s.
  - exists 0%nat. cbn. rewrite app_nil_r. split; [now destruct s | reflexivity].
  - cbn [forM_ combine List.map fst snd]. unfold bind.
    rewrite (show_image_run w img x s Hx).
    destruct (st_image w (url img)) as [[] | e].
    + match goal with
      | |- context [forM_ (show_image w) l ?s1] =>
          destruct (IH s1) as (k & Hk & Hok);
          destruct (forM_ (show_image w) l s1) as [r s2]
      end.
      cbn [fst snd] in *. subst s2. exists (S k).
      cbn [trace draws firstn]. rewrite <- app_assoc.
      split; [reflexivity |].
      intros Hret. cbn [List.length]. f_equal. exact (Hok Hret).
    + exists 0%nat. cbn. rewrite app_nil_r.
      split; [now destruct s | discriminate].
Qed.

Lemma shows_at_most_bind {A B} n (c : M A) (k : A -> M B) :
  shows_nothing c -> (forall a, shows_at_most n (k a)) ->
  shows_at_most n (bind c k).
Proof.
  intros Hc Hk s. unfold bind.
  destruct (Hc s) as (t & Ht & Ht0).
  destruct (c s) as [[a | e] s'] eqn:E; cbn [snd] in *.
  - destruct (Hk a s') as (u & Hu & Hn). exists (t ++ u).
    rewrite Hu, Ht, app_assoc, images_shown_app, Ht0. now split.
  - exists t. split; [assumption | lia].
Qed.

Lemma shows_nothing_at_most {A} n (c : M A) :
  shows_nothing c -> shows_at_most n c.
Proof.
  intros Hc s. destruct (Hc s) as (t & Ht & Ht0).
  exists t. split; [assumption | lia].
Qed.

Lemma display_shows_at_most_five w ranked_images :
  shows_at_most 5 (display w ranked_images).
Proof.
  intros s. unfold display.
  destruct (forM_show_image_trace w (firstn 5 ranked_images) s)
    as (u & Hu & Hn).
  exists u. split; [assumption |].
  pose proof (firstn_le_length 5 ranked_images). lia.
Qed.

Lemma process_topic_shows_at_most_five w topic :
  shows_at_most 5 (process_topic w topic).
Proof.
  unfold process_topic.
  apply shows_at_most_bind; [now apply shows_nothing_emit |]. intros _.
  apply shows_at_most_bind; [apply fetch_shows_nothing |]. intros images.
  destruct images as [| img images].
  - apply shows_nothing_at_most. now apply shows_nothing_emit.
  - apply shows_at_most_bind; [apply score_all_shows_nothing |]. intros scored.
    apply shows_at_most_bind; [apply shows_nothing_lift |]. intros r.
    apply display_shows_at_most_five.
Qed.

Lemma Forall2_firstn {A B} (R : A -> B -> Prop) n l l' :
  Forall2 R l l' -> Forall2 R (firstn n l) (firstn n l').
Proof.
  intros H. revert n. induction H as [| a b l l' Hab _ IH]; intros [| n];
    cbn [firstn]; constructor; auto.
Qed.

(** C4, as the script has it.  The Presenter shows an initial part of the
    first five records of the ranked sequence, in order, each with its URL,
    score, author and link, and nothing else; it shows all of the first five
    (every record when there are fewer) when no [st.image] call raises, and
    so whenever it returns.  Whatever the search returned, the pass over one
    topic shows at most five images. *)
Theorem display_top_five
  (ranked_images : list image_record) (xs : list float) (s : state)
  (w : world) (topic : str) :
  Forall2 (fun img x => score img = Some x) ranked_images xs ->
  let top := List.map (fun p => image_event (fst p) (snd p))
               (combine (firstn 5 ranked_images) (firstn 5 xs)) in
  (exists k,
     snd (display w ranked_images s)
     = {| trace := trace s ++ firstn k top; draws := draws s |}
     /\ (fst (display w ranked_images s) = Ok tt -> firstn k top = top))
  /\ (Forall (fun img => st_image w (url img) = Ok tt)
             (firstn 5 ranked_images) ->
      display w ranked_images s
      = (Ok tt, {| trace := trace s ++ top; draws := draws s |}))
  /\ List.length top = Nat.min 5 (List.length ranked_images)
  /\ (List.length top <= 5)%nat
  /\ shows_at_most 5 (process_topic w topic).
Proof.
  intros H top.
  assert (Hlen : List.length xs = List.length ranked_images).
  { symmetry. eapply Forall2_length; eassumption. }
  assert (Htop : List.length top = Nat.min 5 (List.length ranked_images)).
  { unfold top. rewrite length_map, length_combine, !length_firstn, Hlen. lia. }
  pose proof (Forall2_firstn _ 5 _ _ H) as H5.
  split; [| split; [| split; [| split]]].
  - unfold display.
    destruct (forM_show_image_prefix w _ _ s H5) as (k & Hk & Hok).
    exists k. split; [exact Hk |].
    intros Hret. apply firstn_all2. rewrite Htop, (Hok Hret), length_firstn.
    lia.
  - intros Hacc. unfold display. now apply forM_show_image_scored.
  - exact Htop.
  - rewrite Htop. lia.
  - apply process_topic_shows_at_most_five.
Qed.

(** ** Floats: shifting and rounding a mantissa *)

Lemma iter_pos_nat {A} (f : A -> A) (p : positive) (x : A) :
  iter_pos f p x = Nat.iter (Pos.to_nat p) f x.
Proof.
  revert x; induction p as [p IH | p IH |]; intro x; simpl iter_pos.
  - rewrite !IH, Pos2Nat.inj_xI.
    replace (S (2 * Pos.to_nat p)) with (Pos.to_nat p + S (Pos.to_nat p))%nat by lia.
    now rewrite Nat.iter_add, Nat.iter_succ_r.
  - rewrite !IH, Pos2Nat.inj_xO.
    replace (2 * Pos.to_nat p)%nat with (Pos.to_nat p + Pos.to_nat p)%nat by lia.
    now rewrite Nat.iter_add.
  - reflexivity.
Qed.

Lemma shr_1_nonneg m r s :
  0 <= m ->
  shr_1 (Build_shr_record m r s) = Build_shr_record (m / 2) (Z.odd m) (r || s).
Proof.
  intros Hm. destruct m as [| [p | p |] | p]; try lia; cbn [shr_1].
  - reflexivity.
  - f_equal. apply Z.div_unique with (r := 1); lia.
  - f_equal. apply Z.div_unique with (r := 0); lia.
  - reflexivity.
Qed.

Lemma shr_1_iter_m (n : nat) mrs :
  0 <= shr_m mrs ->
  shr_m (Nat.iter n shr_1 mrs) = shr_m mrs / 2 ^ Z.of_nat n.
Proof.
  intros Hm. induction n as [| n IH].
  - simpl. now rewrite Z.div_1_r.
  - rewrite Nat.iter_succ.
    assert (H0 : 0 <= shr_m (Nat.iter n shr_1 mrs)).
    { rewrite IH. apply Z.div_pos; [assumption | apply Z.pow_pos_nonneg; lia]. }
    destruct (Nat.iter n shr_1 mrs) as [m r s] eqn:E. cbn [shr_m] in *.
    rewrite shr_1_nonneg by assumption. cbn [shr_m].
    rewrite IH, Nat2Z.inj_succ, Z.pow_succ_r by lia.
    rewrite Z.div_div by (try apply Z.pow_pos_nonneg; lia).
    f_equal; lia.
Qed.

Lemma shr_1_iter_exact (n : nat) (x : Z) :
  0 <= x ->
  Nat.iter n shr_1 (Build_shr_record (x * 2 ^ Z.of_nat n) false false)
  = Build_shr_record x false false.
Proof.
  intros Hx. induction n as [| n IH].
  - simpl. f_equal. lia.
  - rewrite Nat.iter_succ_r, shr_1_nonneg.
    + rewrite Nat2Z.inj_succ, Z.pow_succ_r by lia.
      replace (x * (2 * 2 ^ Z.of_nat n)) with ((x * 2 ^ Z.of_nat n) * 2) by lia.
      rewrite Z.div_mul by lia.
      rewrite Z.odd_mul, andb_false_r. exact IH.
    + apply Z.mul_nonneg_nonneg; [assumption | apply Z.pow_nonneg; lia].
Qed.

Lemma shr_exact mx e n x :
  0 <= x -> 0 <= n -> mx = x * 2 ^ n ->
  shr (Build_shr_record mx false false) e n
  = (Build_shr_record x false false, e + n).
Proof.
  intros Hx Hn ->. destruct n as [| p | p]; try lia; cbn [shr].
  - rewrite Z.pow_0_r, Z.mul_1_r, Z.add_0_r. reflexivity.
  - rewrite iter_pos_nat. f_equal.
    rewrite <- (positive_nat_Z p). apply shr_1_iter_exact; assumption.
Qed.

Lemma shr_exact_succ mx e n x :
  0 <= x -> 0 <= n -> mx = x * 2 ^ n ->
  shr (Build_shr_record mx false false) e (n + 1)
  = (Build_shr_record (x / 2) (Z.odd x) false, e + (n + 1)).
Proof.
  intros Hx Hn ->. destruct (n + 1) as [| p | p] eqn:E; try lia; cbn [shr].
  rewrite iter_pos_nat. f_equal.
  replace (Pos.to_nat p) with (S (Z.to_nat n)) by lia.
  rewrite Nat.iter_succ.
  replace (2 ^ n) with (2 ^ Z.of_nat (Z.to_nat n)) by (f_equal; lia).
  rewrite shr_1_iter_exact by assumption.
  rewrite shr_1_nonneg by assumption. reflexivity.
Qed.

Lemma digits2_pos_bounds (p : positive) :
  2 ^ (Zpos (digits2_pos p) - 1) <= Zpos p < 2 ^ Zpos (digits2_pos p).
Proof.
  induction p as [p IH | p IH |]; cbn [digits2_pos].
  - rewrite Pos2Z.inj_succ, Pos2Z.inj_xI.
    replace (Z.succ (Zpos (digits2_pos p)) - 1) with (Zpos (digits2_pos p)) by lia.
    rewrite Z.pow_succ_r by lia.
    assert (E : 2 ^ Zpos (digits2_pos p) = 2 * 2 ^ (Zpos (digits2_pos p) - 1)).
    { rewrite <- Z.pow_succ_r by lia. f_equal. lia. }
    lia.
  - rewrite Pos2Z.inj_succ. pose proof (Pos2Z.inj_xO p) as E2.
    replace (Z.succ (Zpos (digits2_pos p)) - 1) with (Zpos (digits2_pos p)) by lia.
    rewrite Z.pow_succ_r by lia.
    assert (E : 2 ^ Zpos (digits2_pos p) = 2 * 2 ^ (Zpos (digits2_pos p) - 1)).
    { rewrite <- Z.pow_succ_r by lia. f_equal. lia. }
    lia.
  - simpl. lia.
Qed.

Lemma digits2_pos_unique (p : positive) (d : Z) :
  2 ^ (d - 1) <= Zpos p < 2 ^ d -> Zpos (digits2_pos p) = d.
Proof.
  intros [Hlo Hhi]. pose proof (digits2_pos_bounds p) as [Hlo' Hhi'].
  set (d' := Zpos (digits2_pos p)) in *.
  assert (0 < d).
  { destruct (Z.le_gt_cases d 0) as [H|H]; [|assumption].
    assert (2 ^ d <= 2 ^ 0) by (apply Z.pow_le_mono_r; lia). simpl in *. lia. }
  destruct (Z.lt_trichotomy d' d) as [H1 | [H1 | H1]]; [| assumption |].
  - assert (2 ^ d' <= 2 ^ (d - 1)) by (apply Z.pow_le_mono_r; lia). lia.
  - assert (2 ^ d <= 2 ^ (d' - 1)) by (apply Z.pow_le_mono_r; lia). lia.
Qed.

Lemma fexp_normal d e :
  -1074 <= d + e - 53 -> fexp prec emax (d + e) = d + e - 53.
Proof. intros H. unfold fexp, emin, prec, emax. lia. Qed.

Lemma shr_fexp_canonical m e :
  Zpos (digits2_pos m) = 53 -> -1074 <= e ->
  shr_fexp prec emax (Zpos m) e loc_Exact
  = (Build_shr_record (Zpos m) false false, e).
Proof.
  intros Hd He. unfold shr_fexp. cbn [Zdigits2 shr_record_of_loc].
  rewrite Hd, fexp_normal by lia.
  replace (53 + e - 53 - e) with 0 by lia. reflexivity.
Qed.

Lemma binary_round_aux_canonical s m e :
  Zpos (digits2_pos m) = 53 -> -1074 <= e <= 971 ->
  binary_round_aux prec emax s (Zpos m) e loc_Exact = S754_finite s m e.
Proof.
  intros Hd He. unfold binary_round_aux.
  rewrite shr_fexp_canonical by lia.
  cbn [shr_m loc_of_shr_record round_nearest_even].
  rewrite shr_fexp_canonical by lia. cbn [shr_m].
  unfold emax, prec. destruct (Z.leb_spec e (1024 - 53)); [reflexivity | lia].
Qed.

Lemma digits2_scaled M X j d :
  Zpos M = X * 2 ^ j -> 0 <= j -> 2 ^ (d - 1) <= X < 2 ^ d -> 0 < d ->
  Zpos (digits2_pos M) = d + j.
Proof.
  intros HM Hj [Hlo Hhi] Hd. apply digits2_pos_unique.
  replace (d + j - 1) with ((d - 1) + j) by lia.
  rewrite !Z.pow_add_r by lia. rewrite HM.
  assert (0 < 2 ^ j) by (apply Z.pow_pos_nonneg; lia). nia.
Qed.

Lemma binary_round_aux_scaled s M E X j :
  Zpos M = X * 2 ^ j -> 0 <= j -> 2 ^ 52 <= X < 2 ^ 54 - 1 ->
  -1074 <= E + j -> E + j + 1 <= 971 ->
  binary_round_aux prec emax s (Zpos M) E loc_Exact
  = if X <? 2 ^ 53 then S754_finite s (Z.to_pos X) (E + j)
    else S754_finite s (Z.to_pos (half_even X)) (E + (j + 1)).
Proof.
  intros HM Hj HX Hlo Hhi.
  destruct (Z.ltb_spec X (2 ^ 53)) as [Hlt | Hge].
  - assert (HD : Zpos (digits2_pos M) = 53 + j).
    { apply digits2_scaled with (X := X); try assumption; lia. }
    unfold binary_round_aux, shr_fexp at 1. cbn [Zdigits2 shr_record_of_loc].
    rewrite HD, fexp_normal by lia.
    replace (53 + j + E - 53 - E) with j by lia.
    rewrite (shr_exact _ _ _ X) by (try assumption; lia).
    cbn [shr_m loc_of_shr_record round_nearest_even].
    destruct X as [| x | x]; try lia.
    rewrite shr_fexp_canonical.
    + cbn [shr_m Z.to_pos]. unfold emax, prec.
      destruct (Z.leb_spec (E + j) (1024 - 53)); [reflexivity | lia].
    + apply digits2_pos_unique. lia.
    + lia.
  - assert (HD : Zpos (digits2_pos M) = 54 + j).
    { apply digits2_scaled with (X := X); try assumption; lia. }
    unfold binary_round_aux, shr_fexp at 1. cbn [Zdigits2 shr_record_of_loc].
    rewrite HD, fexp_normal by lia.
    replace (54 + j + E - 53 - E) with (j + 1) by lia.
    rewrite (shr_exact_succ _ _ _ X) by (try assumption; lia).
    assert (Hq : 2 ^ 52 <= X / 2 <= 2 ^ 53 - 1).
    { split; [apply Z.div_le_lower_bound | apply Z.div_le_upper_bound]; lia. }
    assert (Hh : round_nearest_even (X / 2)
                   (loc_of_shr_record (Build_shr_record (X / 2) (Z.odd X) false))
                 = half_even X).
    { unfold half_even. cbn [loc_of_shr_record].
      destruct (Z.odd X); cbn [round_nearest_even andb]; [| reflexivity].
      rewrite <- Z.negb_odd. destruct (Z.odd (X / 2)); reflexivity. }
    cbn [shr_m]. rewrite Hh.
    assert (Hhe : 2 ^ 52 <= half_even X < 2 ^ 53).
    { unfold half_even. destruct (Z.odd X) eqn:Ox; cbn [andb]; [| lia].
      destruct (Z.odd (X / 2)) eqn:Oq; [| lia].
      assert (X / 2 <> 2 ^ 53 - 1); [| lia].
      intros Heq. pose proof (Z.div_mod X 2 ltac:(lia)) as Hdm.
      pose proof (Zmod_odd X) as Hmo. rewrite Ox in Hmo. lia. }
    destruct (half_even X) as [| h | h] eqn:Eh; try lia.
    rewrite shr_fexp_canonical.
    + cbn [shr_m Z.to_pos]. unfold emax, prec.
      destruct (Z.leb_spec (E + (j + 1)) (1024 - 53)); [reflexivity | lia].
    + apply digits2_pos_unique. lia.
    + lia.
Qed.

Lemma pos_iter_xO (p n : positive) :
  Zpos (Pos.iter xO p n) = Zpos p * 2 ^ Zpos n.
Proof.
  rewrite (Pos.iter_swap_gen _ _ Zpos xO (Z.mul 2)) by reflexivity.
  change (Pos.iter (Z.mul 2) (Zpos p) n) with (Z.shiftl (Zpos p) (Zpos n)).
  apply Z.shiftl_mul_pow2. lia.
Qed.

Lemma shl_align_le mx ex ex' :
  ex' <= ex ->
  exists m', shl_align mx ex ex' = (m', ex') /\ Zpos m' = Zpos mx * 2 ^ (ex - ex').
Proof.
  intros H. unfold shl_align. destruct (ex' - ex) as [| d | d] eqn:E; try lia.
  - exists mx. replace ex' with ex by lia. rewrite Z.sub_diag. split; [reflexivity | lia].
  - exists (Pos.iter xO mx d). split; [reflexivity |].
    rewrite pos_iter_xO. do 2 f_equal. lia.
Qed.

Lemma shl_align_ge mx ex ex' :
  ex <= ex' -> shl_align mx ex ex' = (mx, ex).
Proof.
  intros H. unfold shl_align. destruct (ex' - ex) as [| d | d] eqn:E; try lia; reflexivity.
Qed.

Lemma binary_round_small s p E d :
  Zpos (digits2_pos p) = d -> d <= 53 ->
  -1074 <= E + d - 53 <= 971 ->
  exists mz, binary_round prec emax s p E = S754_finite s mz (E + d - 53)
             /\ Zpos mz = Zpos p * 2 ^ (53 - d)
             /\ Zpos (digits2_pos mz) = 53.
Proof.
  intros Hd Hle HE. unfold binary_round.
  rewrite Hd, fexp_normal by lia.
  destruct (shl_align_le p E (d + E - 53) ltac:(lia)) as (mz & -> & Hmz).
  replace (E - (d + E - 53)) with (53 - d) in Hmz by lia.
  assert (Hdz : Zpos (digits2_pos mz) = 53).
  { pose proof (digits2_pos_bounds p) as Hb. rewrite Hd in Hb.
    rewrite (digits2_scaled mz (Zpos p) (53 - d) d); lia. }
  exists mz. rewrite binary_round_aux_canonical by lia.
  repeat split; try assumption. f_equal. lia.
Qed.

Lemma uniform_3_7_value (k : Z) :
  0 < k < 2 ^ 53 ->
  uniform 3 7 (random_float k)
  = if 3 * 2 ^ 51 + k <? 2 ^ 53
    then S754_finite false (Z.to_pos (3 * 2 ^ 51 + k)) (-51)
    else S754_finite false (Z.to_pos (half_even (3 * 2 ^ 51 + k))) (-50).
Proof.
  intros Hk. unfold uniform, random_float, fadd, fmul.
  rewrite Z.mod_small by lia.
  destruct k as [| p | p]; try lia. cbn [binary_normalize].
  pose proof (digits2_pos_bounds p) as Hb.
  set (d := Zpos (digits2_pos p)) in *.
  assert (Hd : 1 <= d <= 53).
  { split; [subst d; lia |].
    destruct (Z.le_gt_cases d 53); [assumption |].
    assert (2 ^ 53 <= 2 ^ (d - 1)) by (apply Z.pow_le_mono_r; lia). lia. }
  destruct (binary_round_small false p (-53) d eq_refl ltac:(lia) ltac:(lia))
    as (mz & -> & Hmz & Hdz).
  change (of_int (7 - 3)) with (S754_finite false (2 ^ 52)%positive (-50)).
  change (of_int 3) with (S754_finite false (3 * 2 ^ 51)%positive (-51)).
  cbn [SFmul xorb].
  pose proof (digits2_pos_bounds mz) as Hz. rewrite Hdz in Hz.
  change (53 - 1) with 52 in Hz.
  rewrite (binary_round_aux_scaled _ _ _ (Zpos mz) 52)
    by (try rewrite Pos2Z.inj_mul; lia).
  assert (Hmz53 : (Zpos mz <? 2 ^ 53) = true) by (apply Z.ltb_lt; lia).
  rewrite Hmz53. cbn [Z.to_pos].
  cbn [SFadd].
  replace (Z.min (-51) (-50 + (-53 + d - 53) + 52)) with (d - 104) by lia.
  replace (-50 + (-53 + d - 53) + 52) with (d - 104) by lia.
  destruct (shl_align_le (3 * 2 ^ 51)%positive (-51) (d - 104) ltac:(lia))
    as (a & -> & Ha).
  rewrite shl_align_ge by lia. cbn [fst cond_Zopp Z.add binary_normalize].
  assert (HM : Zpos (a + mz) = (3 * 2 ^ 51 + Zpos p) * 2 ^ (53 - d)).
  { rewrite Pos2Z.inj_add, Ha, Hmz.
    replace (-51 - (d - 104)) with (53 - d) by lia.
    change (Zpos (3 * 2 ^ 51)) with (3 * 2 ^ 51). lia. }
  unfold binary_round.
  assert (HD : d - 104 <= fexp prec emax (Zpos (digits2_pos (a + mz)) + (d - 104))).
  { assert (53 + (53 - d) <= Zpos (digits2_pos (a + mz))).
    { destruct (Z.ltb_spec (3 * 2 ^ 51 + Zpos p) (2 ^ 53)).
      - rewrite (digits2_scaled _ _ _ 53 HM); lia.
      - rewrite (digits2_scaled _ _ _ 54 HM); lia. }
    unfold fexp, emin, prec, emax. lia. }
  rewrite shl_align_ge by assumption.
  rewrite (binary_round_aux_scaled _ _ _ _ _ HM) by lia.
  replace (d - 104 + (53 - d)) with (-51) by lia.
  replace (d - 104 + (53 - d + 1)) with (-50) by lia.
  reflexivity.
Qed.

Lemma half_even_bounds x :
  0 <= x -> x / 2 <= half_even x <= x / 2 + 1.
Proof.
  intros _. unfold half_even. destruct (Z.odd x && Z.odd (x / 2)); lia.
Qed.

Lemma SFleb_finite_pos (m1 m2 : positive) (e : Z) :
  (m1 <= m2)%positive ->
  SFleb (S754_finite false m1 e) (S754_finite false m2 e) = true.
Proof.
  intros H. unfold SFleb. cbn [SFcompare]. rewrite Z.compare_refl.
  change (Pos.compare_cont Eq m1 m2) with (m1 ?= m2)%positive.
  apply Pos.compare_le_iff in H.
  destruct (m1 ?= m2)%positive; [reflexivity | reflexivity | contradiction].
Qed.

(** [random.uniform(3, 7)] lies between 3.0 and 7.0, ends included, whatever
    the random bits. *)
Lemma uniform_3_7_bounds (k : Z) :
  let x := uniform 3 7 (random_float k) in
  fle (of_int 3) x = true /\ fle x (of_int 7) = true /\ is_finite x = true.
Proof.
  assert (Hmod : random_float k = random_float (k mod 2 ^ 53)).
  { unfold random_float. now rewrite Z.mod_mod by lia. }
  cbv zeta. rewrite Hmod.
  pose proof (Z.mod_pos_bound k (2 ^ 53) ltac:(lia)) as Hk.
  set (k' := k mod 2 ^ 53) in *. clearbody k'. clear Hmod.
  destruct (Z.eq_dec k' 0) as [-> | Hne].
  - repeat split; reflexivity.
  - rewrite uniform_3_7_value by lia.
    change (of_int 3) with (S754_finite false (3 * 2 ^ 51)%positive (-51)).
    change (of_int 7) with (S754_finite false (7 * 2 ^ 50)%positive (-50)).
    destruct (Z.ltb_spec (3 * 2 ^ 51 + k') (2 ^ 53)) as [Hlt | Hge].
    + split; [| split; reflexivity].
      apply SFleb_finite_pos. lia.
    + pose proof (half_even_bounds (3 * 2 ^ 51 + k') ltac:(lia)) as Hh.
      assert (Hq : 2 ^ 52 <= (3 * 2 ^ 51 + k') / 2 < 7 * 2 ^ 50).
      { split; [apply Z.div_le_lower_bound | apply Z.div_lt_upper_bound]; lia. }
      split; [reflexivity | split; [| reflexivity]].
      apply SFleb_finite_pos. lia.
Qed.

(** ** Floats: rounding never invents a NaN *)

Lemma shr_nonneg mrs e n :
  0 <= shr_m mrs -> 0 <= shr_m (fst (shr mrs e n)).
Proof.
  intros H. destruct n as [| p | p]; cbn [shr fst]; try assumption.
  rewrite iter_pos_nat, shr_1_iter_m by assumption.
  apply Z.div_pos; [assumption | apply Z.pow_pos_nonneg; lia].
Qed.

Lemma shr_fexp_nonneg m e l :
  0 <= m -> 0 <= shr_m (fst (shr_fexp prec emax m e l)).
Proof.
  intros H. unfold shr_fexp. apply shr_nonneg.
  destruct l as [| []]; exact H.
Qed.

Lemma round_nearest_even_nonneg m l :
  0 <= m -> 0 <= round_nearest_even m l.
Proof.
  intros H. destruct l as [| []]; cbn [round_nearest_even]; try lia.
  destruct (Z.even m); lia.
Qed.

Lemma binary_round_aux_not_nan s m e l :
  0 <= m -> is_nan (binary_round_aux prec emax s m e l) = false.
Proof.
  intros H. unfold binary_round_aux.
  pose proof (shr_fexp_nonneg m e l H) as H1.
  destruct (shr_fexp prec emax m e l) as [mrs' e']. cbn [fst] in H1.
  pose proof (shr_fexp_nonneg _ e' loc_Exact
                (round_nearest_even_nonneg _ (loc_of_shr_record mrs') H1)) as H2.
  destruct (shr_fexp prec emax _ e' loc_Exact) as [mrs'' e'']. cbn [fst] in H2.
  destruct (shr_m mrs'') as [| q | q]; [reflexivity | | lia].
  destruct (e'' <=? emax - prec); reflexivity.
Qed.

Lemma nearest_ratio_not_nan s n d : is_nan (nearest_ratio s n d) = false.
Proof.
  unfold nearest_ratio, SFdiv_core_binary.
  set (m' := match _ - _ - _ with Zpos _ => _ | Z0 => _ | Zneg _ => _ end).
  assert (Hm : 0 <= m').
  { subst m'. destruct (_ - _ - _); try lia. apply Z.shiftl_nonneg. lia. }
  pose proof (Z.div_pos m' (Zpos d) Hm ltac:(lia)) as Hq.
  unfold Z.div in Hq. destruct (Z.div_eucl m' (Zpos d)) as [q r].
  now apply binary_round_aux_not_nan.
Qed.

(** [round] returns a finite float for a finite argument, and hands back a
    NaN or an infinity as it is. *)
Lemma py_round_is_finite x ndigits y :
  py_round x ndigits = Ok y -> is_finite y = is_finite x.
Proof.
  unfold py_round. destruct x as [s | s | | s m e];
    try (intros H; injection H as <-; reflexivity).
  destruct (NDIGITS_MAX <? ndigits)%N;
    [intros H; injection H as <-; reflexivity |].
  destruct (scaled_half_even m e (10 ^ Z.of_N ndigits)) as [| n | n];
    try (intros H; injection H as <-; reflexivity).
  pose proof (nearest_ratio_not_nan s n (Z.to_pos (10 ^ Z.of_N ndigits))) as Hn.
  destruct (nearest_ratio s n (Z.to_pos (10 ^ Z.of_N ndigits)));
    cbn [is_inf]; intros H; try discriminate; injection H as <-; reflexivity.
Qed.

(** The only exception [round] raises is [OverflowError]. *)
Lemma py_round_raises x ndigits e :
  py_round x ndigits = Raise e -> e = OverflowError.
Proof.
  unfold py_round. destruct x as [s | s | | s m e0]; try discriminate.
  destruct (NDIGITS_MAX <? ndigits)%N; [discriminate |].
  destruct (scaled_half_even m e0 (10 ^ Z.of_N ndigits)); try discriminate.
  destruct (is_inf _); [congruence | discriminate].
Qed.

(** ** Aesthetic Scorer *)

(** One call of the scorer: the download is requested, then the value of the
    [try] block is returned, or replaced by a random draw when the block
    raised an [Exception]. *)
Lemma compute_aesthetic_score_run w image_url s :
  compute_aesthetic_score w image_url s
  = let s1 := {| trace := trace s ++ [Http_image image_url];
                 draws := draws s |} in
    match attempt w image_url with
    | Ok x => (Ok x, s1)
    | Raise e =>
        if isinstance_Exception e
        then (Ok (uniform 3 7 (random_float (random_bits w (draws s)))),
              {| trace := trace s1; draws := S (draws s) |})
        else (Raise e, s1)
    end.
Proof.
  unfold compute_aesthetic_score, try_except_Exception, attempt, raw_logit,
    download, bind, lift, emit, random_uniform, affine.
  cbn [trace draws].
  destruct (requests_get_content w image_url) as [content | e];
    cbn [rbind]; [| reflexivity].
  destruct (image_open_rgb w content) as [image | e];
    cbn [rbind]; [| reflexivity].
  destruct (clip_logit w image) as [logit | e]; cbn [rbind]; [| reflexivity].
  destruct (py_round _ 2) as [x | e]; reflexivity.
Qed.

(** C5.  When the download, the decoding or the forward pass raises an
    [Exception], the scorer raises nothing: it returns
    [random.uniform(3, 7)] on the next random bits, a float between 3.0 and
    7.0, after the one download request and one draw. *)
Theorem scoring_failure_falls_back
  (w : world) (image_url : pyval) (s : state) (e : exn) :
  raw_logit w image_url = Raise e ->
  isinstance_Exception e = true ->
  exists x,
    compute_aesthetic_score w image_url s
    = (Ok x, {| trace := trace s ++ [Http_image image_url];
                draws := S (draws s) |})
    /\ x = uniform 3 7 (random_float (random_bits w (draws s)))
    /\ fle (of_int 3) x = true
    /\ fle x (of_int 7) = true.
Proof.
  intros Hraw He. eexists. rewrite compute_aesthetic_score_run.
  unfold attempt. rewrite Hraw. cbn [rbind]. rewrite He. cbv zeta. cbn [trace].
  split; [reflexivity |]. split; [reflexivity |].
  destruct (uniform_3_7_bounds (random_bits w (draws s))) as (H3 & H7 & _).
  split; assumption.
Qed.

(** C6, as the script has it.  When download, decoding and forward pass
    succeed with logit [l], the scorer returns [round(5 + l * 2.5, 2)]: the
    affine transform rounded to two decimals (and the random draw if that
    rounding overflows). *)
Theorem scoring_success_rounds
  (w : world) (image_url : pyval) (s : state) (l : float) :
  raw_logit w image_url = Ok l ->
  compute_aesthetic_score w image_url s
  = match py_round (fadd (of_int 5) (fmul l lit_2_5)) 2 with
    | Ok x =>
        (Ok x, {| trace := trace s ++ [Http_image image_url];
                  draws := draws s |})
    | Raise _ =>
        (Ok (uniform 3 7 (random_float (random_bits w (draws s)))),
         {| trace := trace s ++ [Http_image image_url];
            draws := S (draws s) |})
    end.
Proof.
  intros Hraw. rewrite compute_aesthetic_score_run.
  unfold attempt, affine. rewrite Hraw. cbn [rbind].
  destruct (py_round _ 2) as [x | e] eqn:E; [reflexivity |].
  apply py_round_raises in E. subst e. reflexivity.
Qed.

(** The score a record gets is finite exactly when the [try] block failed or
    the affine transform of the logit is finite. *)
Lemma compute_aesthetic_score_finite w image_url s x s' :
  compute_aesthetic_score w image_url s = (Ok x, s') ->
  is_finite x = match raw_logit w image_url with
                | Ok l => is_finite (affine l)
                | Raise _ => true
                end.
Proof.
  rewrite compute_aesthetic_score_run. unfold attempt. cbv zeta.
  pose proof (uniform_3_7_bounds (random_bits w (draws s))) as (_ & _ & Hu).
  destruct (raw_logit w image_url) as [l | e]; cbn [rbind].
  - destruct (py_round (affine l) 2) as [y | e] eqn:E.
    + intros H. injection H as <- _. eapply py_round_is_finite; eassumption.
    + pose proof (py_round_raises _ _ _ E) as He. subst e.
      cbn [isinstance_Exception].
      intros H. injection H as <- _. rewrite Hu.
      unfold py_round in E.
      destruct (affine l); try discriminate. reflexivity.
  - destruct (isinstance_Exception e); [| discriminate].
    intros H. injection H as <- _. exact Hu.
Qed.

Lemma compute_aesthetic_score_returns w image_url s :
  (forall e, raw_logit w image_url = Raise e -> isinstance_Exception e = true) ->
  exists x s', compute_aesthetic_score w image_url s = (Ok x, s').
Proof.
  intros H. rewrite compute_aesthetic_score_run. unfold attempt. cbv zeta.
  destruct (raw_logit w image_url) as [l | e]; cbn [rbind].
  - destruct (py_round (affine l) 2) as [y | e] eqn:E; [eauto |].
    apply py_round_raises in E. subst e. cbn [isinstance_Exception]. eauto.
  - rewrite (H e eq_refl). eauto.
Qed.

(** C2, as the script has it.  When no step of the [try] block raises
    anything but an [Exception], the scoring loop returns, and gives every
    record a score.  The score is finite when the block failed, and when it
    succeeded it is finite exactly when [5 + logit * 2.5] is: a NaN or
    infinite logit goes through to the score. *)
Theorem scores_present_after_scoring
  (w : world) (images : list image_record) (s : state) :
  (forall img e, In img images ->
     raw_logit w (url img) = Raise e -> isinstance_Exception e = true) ->
  exists scored s',
    score_all w images s = (Ok scored, s')
    /\ Forall2
         (fun img r =>
            exists x,
              r = set_score img x
              /\ score r = Some x
              /\ is_finite x = match raw_logit w (url img) with
                               | Ok l => is_finite (fadd (of_int 5)
                                                      (fmul l lit_2_5))
                               | Raise _ => true
                               end)
         images scored.
Proof.
  revert s. induction images as [| img images IH]; intros s Hexn.
  - exists [], s. split; [reflexivity | constructor].
  - destruct (compute_aesthetic_score_returns w (url img) s) as (x & s1 & Hx).
    { intros e. apply Hexn. now left. }
    destruct (IH s1) as (scored & s2 & Hs & Hall).
    { intros i e Hi. apply Hexn. now right. }
    exists (set_score img x :: scored), s2. split.
    + unfold score_all in *. cbn [mapM]. unfold bind at 1.
      unfold score_image at 1. unfold bind at 1. rewrite Hx.
      unfold ret at 1. unfold bind. rewrite Hs. reflexivity.
    + constructor; [| assumption]. exists x.
      repeat split. exact (compute_aesthetic_score_finite _ _ _ _ _ Hx).
Qed.

(** ** Image Source Client *)


(** The title of a record is [alt_description or "Untitled"]. *)
Lemma record_of_result_title img r :
  record_of_result img = Ok r ->
  exists alt,
    getitem img "alt_description" = Ok alt
    /\ title r = py_or alt (PStr (lit "Untitled")).
Proof.
  unfold record_of_result. intros H.
  destruct (getitem img "alt_description") as [alt |]; [| discriminate].
  exists alt. split; [reflexivity |]. cbn [rbind] in H.
  repeat match type of H with
         | rbind ?c _ = _ => destruct c; [cbn [rbind] in H | discriminate]
         end.
  injection H as <-. reflexivity.
Qed.

Lemma rmap_Forall2 {A B} (f : A -> result B) l out :
  rmap f l = Ok out -> Forall2 (fun a b => f a = Ok b) l out.
Proof.
  revert out. induction l as [| a l IH]; intros out H; cbn [rmap] in H.
  - injection H as <-. constructor.
  - destruct (f a) as [b |] eqn:Ea; [| discriminate]. cbn [rbind] in H.
    destruct (rmap f l) as [bs |]; [| discriminate]. cbn [rbind] in H.
    injection H as <-. constructor; auto.
Qed.

(** With a credential and an answer of status 200, the client returns the
    records built from the decoded body. *)
Lemma fetch_success w query count s key r data :
  secrets_UNSPLASH_ACCESS_KEY w = Some key -> key <> [] ->
  requests_get_search w query count key = Ok r ->
  status_code r = 200 -> json r = Ok data ->
  fetch_unsplash_images w query count s
  = (records_of_data data,
     {| trace := trace s ++ [Http_search query count key];
        draws := draws s |}).
Proof.
  intros Hkey Hne Hget Hstatus Hjson.
  unfold fetch_unsplash_images, UNSPLASH_ACCESS_KEY. rewrite Hkey.
  destruct key as [| c key]; [contradiction |].
  unfold requests_get, bind, lift, emit. rewrite Hget, Hstatus, Hjson.
  reflexivity.
Qed.

(** C9, as the script has it.  For a successful search response the client
    returns one record for each result, in order; a result whose
    [alt_description] is null gets the title "Untitled", and one whose
    [alt_description] is truthy (a non-empty string, say) keeps it. *)
Theorem title_defaults_when_null
  (w : world) (query : str) (count : Z) (s : state)
  (key : str) (r : response) (data : pyval) (records : list image_record) :
  secrets_UNSPLASH_ACCESS_KEY w = Some key -> key <> [] ->
  requests_get_search w query count key = Ok r ->
  status_code r = 200 -> json r = Ok data ->
  records_of_data data = Ok records ->
  fst (fetch_unsplash_images w query count s) = Ok records
  /\ exists results,
       rbind (dict_get data "results" (PList [])) py_iter = Ok results
       /\ Forall2
            (fun img rec =>
               exists alt,
                 getitem img "alt_description" = Ok alt
                 /\ (alt = PNone -> title rec = PStr (lit "Untitled"))
                 /\ (truthy alt = true -> title rec = alt))
            results records.
Proof.
  intros Hkey Hne Hget Hstatus Hjson Hrec.
  rewrite (fetch_success _ _ _ _ _ _ _ Hkey Hne Hget Hstatus Hjson).
  split; [exact Hrec |].
  unfold records_of_data in Hrec.
  destruct (dict_get data "results" (PList [])) as [v |]; [| discriminate].
  cbn [rbind] in *.
  destruct (py_iter v) as [results |]; [| discriminate]. cbn [rbind] in Hrec.
  exists results. split; [reflexivity |].
  apply rmap_Forall2 in Hrec.
  eapply Forall2_impl; [| exact Hrec]. intros img rec Himg.
  destruct (record_of_result_title _ _ Himg) as (alt & Halt & Htitle).
  exists alt. split; [assumption |]. rewrite Htitle. unfold py_or. split.
  - intros ->. reflexivity.
  - intros ->. reflexivity.
Qed.

(** C10.  A result whose [alt_description] is falsy, the empty string as
    well as null, zero, [false] or an empty container, gets the title
    "Untitled". *)
Theorem title_defaults_when_falsy
  (img : pyval) (rec : image_record) (alt : pyval) :
  record_of_result img = Ok rec ->
  getitem img "alt_description" = Ok alt ->
  truthy alt = false ->
  title rec = PStr (lit "Untitled").
Proof.
  intros Hrec Halt Hfalsy.
  destruct (record_of_result_title _ _ Hrec) as (alt' & Halt' & ->).
  assert (alt' = alt) by congruence. subst alt'.
  unfold py_or. now rewrite Hfalsy.
Qed.

(** ** The page *)

Lemma forM_emit_pages (els : list page_element) (s : state) :
  forM_ (fun el => emit (St_page el)) els s
  = (Ok tt, {| trace := trace s ++ List.map St_page els; draws := draws s |}).
Proof.
  revert s. induction els as [| el els IH]; intros s; cbn [forM_ List.map].
  - unfold ret. rewrite app_nil_r. now destruct s.
  - unfold bind, emit. rewrite IH. cbn [trace draws].
    now rewrite <- app_assoc.
Qed.

(** C8.  With nothing selected and no topic in the free text, the page shows
    its header and the prompt and stops there: the trace holds no network
    request (no search, no download, no model load), none of the random bits
    is drawn and no topic is processed. *)
Theorem empty_selection_halts (w : world) (s : state) :
  multiselect w = [] ->
  custom_topics (text_input w) = [] ->
  script w s
  = (Raise StopException,
     {| trace := trace s ++ List.map St_page header ++ [St_info ChooseAtLeastOne];
        draws := draws s |})
  /\ filter is_network (List.map St_page header ++ [St_info ChooseAtLeastOne])
     = [].
Proof.
  intros Hpre Hcustom. split; [| reflexivity].
  unfold script. unfold bind at 1. rewrite forM_emit_pages.
  unfold selected_topics. rewrite Hpre, Hcustom. cbn [app].
  unfold bind, emit, st_stop, raise. cbn [trace draws].
  now rewrite <- app_assoc.
Qed.

(* ================================================================== *)
(** * The properties on the sample run *)

(** C2, as the claim words it, fails: the model answers the third image of
    the sample with NaN, nothing raises, and the score of the record is
    NaN. *)
Lemma nan_logit_gives_nan_score :
  raw_logit sample_world (url record_c) = Ok S754_nan
  /\ fst (score_all sample_world [record_c] initial)
     = Ok [set_score record_c S754_nan]
  /\ is_finite S754_nan = false.
Proof. repeat split; reflexivity. Qed.

Lemma scores_present_after_scoring_witness :
  exists scored s',
    score_all sample_world [record_a; record_b; record_c] initial
    = (Ok scored, s')
    /\ Forall2
         (fun img r =>
            exists x,
              r = set_score img x
              /\ score r = Some x
              /\ is_finite x = match raw_logit sample_world (url img) with
                               | Ok l => is_finite (fadd (of_int 5)
                                                      (fmul l lit_2_5))
                               | Raise _ => true
                               end)
         [record_a; record_b; record_c] scored.
Proof.
  apply (scores_present_after_scoring sample_world
           [record_a; record_b; record_c] initial).
  intros img e [<- | [<- | [<- | []]]] H; vm_compute in H;
    try discriminate; injection H as <-; reflexivity.
Defined.

(** C3, as the claim words it, fails: among the records the sample run
    scores, the one with the NaN score comes out first, and NaN is not
    greater than or equal to the score that follows it. *)
Lemma nan_score_breaks_descending :
  exists scored out a b x y,
    fst (score_all sample_world [record_c; record_b] initial) = Ok scored
    /\ ranked scored = Ok out
    /\ nth_error out 0 = Some a /\ nth_error out 1 = Some b
    /\ score a = Some x /\ score b = Some y
    /\ fge x y = false.
Proof.
  exists [set_score record_c S754_nan; set_score record_b f_5_31],
         [set_score record_c S754_nan; set_score record_b f_5_31],
         (set_score record_c S754_nan), (set_score record_b f_5_31),
         S754_nan, f_5_31.
  repeat split; reflexivity.
Qed.

Lemma ranked_descending_witness :
  exists out,
    ranked ten_records = Ok out
    /\ Permutation out ten_records
    /\ forall i a b,
         nth_error out i = Some a -> nth_error out (S i) = Some b ->
         exists x y, score a = Some x /\ score b = Some y /\ fge x y = true.
Proof.
  apply (ranked_descending ten_records).
  repeat constructor; eexists; split; reflexivity.
Defined.

(** C4, as the claim words it, fails: in the sample world the image of
    every record is at "b", which [st.image] cannot serve, so that the first
    call raises and none of the top five of the ranked sequence is shown. *)
Lemma display_stops_when_st_image_raises :
  ranked ten_records = Ok (rev ten_records)
  /\ List.length (firstn 5 (rev ten_records)) = 5%nat
  /\ display sample_world (rev ten_records) initial
     = (Raise MediaFileStorageError, initial)
  /\ images_shown (trace (snd (display sample_world (rev ten_records)
                                 initial)))
     = 0%nat.
Proof. repeat split; reflexivity. Qed.

Lemma display_top_five_witness :
  Forall2 (fun img x => score img = Some x) ten_web_records ten_scores
  /\ (let top := List.map (fun p => image_event (fst p) (snd p))
                    (combine (firstn 5 ten_web_records) (firstn 5 ten_scores)) in
      (exists k,
         snd (display sample_world ten_web_records initial)
         = {| trace := trace initial ++ firstn k top; draws := draws initial |}
         /\ (fst (display sample_world ten_web_records initial) = Ok tt
             -> firstn k top = top))
      /\ (Forall (fun img => st_image sample_world (url img) = Ok tt)
                 (firstn 5 ten_web_records) ->
          display sample_world ten_web_records initial
          = (Ok tt, {| trace := trace initial ++ top;
                       draws := draws initial |}))
      /\ List.length top = Nat.min 5 (List.length ten_web_records)
      /\ (List.length top <= 5)%nat
      /\ shows_at_most 5 (process_topic sample_world (lit "boho")))
  /\ Forall (fun img => st_image sample_world (url img) = Ok tt)
            (firstn 5 ten_web_records).
Proof.
  assert (H : Forall2 (fun img x => score img = Some x)
                ten_web_records ten_scores)
    by (repeat constructor).
  split; [exact H |]. split.
  - exact (display_top_five ten_web_records ten_scores initial sample_world
             (lit "boho") H).
  - repeat constructor.
Defined.

Lemma scoring_failure_falls_back_witness :
  raw_logit sample_world (url record_a) = Raise RequestException
  /\ exists x,
       compute_aesthetic_score sample_world (url record_a) initial
       = (Ok x, {| trace := trace initial ++ [Http_image (url record_a)];
                   draws := S (draws initial) |})
       /\ x = uniform 3 7 (random_float (random_bits sample_world
                                            (draws initial)))
       /\ fle (of_int 3) x = true
       /\ fle x (of_int 7) = true.
Proof.
  split; [reflexivity |].
  apply (scoring_failure_falls_back sample_world (url record_a) initial
           RequestException); reflexivity.
Defined.

(** C6, as the claim words it, fails: for the logit 0.125 the affine
    transform is 5.3125 and the scorer returns 5.31. *)
Lemma score_is_rounded_not_affine :
  raw_logit sample_world (url record_b) = Ok f_0_125
  /\ fadd (of_int 5) (fmul f_0_125 lit_2_5) = f_5_3125
  /\ fst (compute_aesthetic_score sample_world (url record_b) initial)
     = Ok f_5_31
  /\ f_5_31 <> f_5_3125.
Proof. repeat split; try reflexivity. discriminate. Qed.

Lemma scoring_success_rounds_witness :
  raw_logit sample_world (url record_b) = Ok f_0_125
  /\ compute_aesthetic_score sample_world (url record_b) initial
     = match py_round (fadd (of_int 5) (fmul f_0_125 lit_2_5)) 2 with
       | Ok x =>
           (Ok x, {| trace := trace initial ++ [Http_image (url record_b)];
                     draws := draws initial |})
       | Raise _ =>
           (Ok (uniform 3 7 (random_float (random_bits sample_world
                                             (draws initial)))),
            {| trace := trace initial ++ [Http_image (url record_b)];
               draws := S (draws initial) |})
       end.
Proof.
  split; [reflexivity |].
  apply (scoring_success_rounds sample_world (url record_b) initial f_0_125).
  reflexivity.
Defined.


Lemma empty_selection_halts_witness :
  multiselect idle_world = []
  /\ custom_topics (text_input idle_world) = []
  /\ script idle_world initial
     = (Raise StopException,
        {| trace := trace initial ++ List.map St_page header
                    ++ [St_info ChooseAtLeastOne];
           draws := draws initial |})
  /\ filter is_network (List.map St_page header ++ [St_info ChooseAtLeastOne])
     = [].
Proof.
  split; [reflexivity |]. split; [reflexivity |].
  apply (empty_selection_halts idle_world initial); reflexivity.
Defined.

(** C9, as the claim words it, fails: the third result of the sample has an
    [alt_description], the empty string, and does not keep it. *)
Lemma empty_alt_description_not_kept :
  getitem (sample_item (PStr []) "c") "alt_description" = Ok (PStr [])
  /\ record_of_result (sample_item (PStr []) "c") = Ok record_c
  /\ title record_c = PStr (lit "Untitled")
  /\ title record_c <> PStr [].
Proof. repeat split; try reflexivity. discriminate. Qed.

Lemma title_defaults_when_null_witness :
  fst (fetch_unsplash_images sample_world (lit "boho") 10 initial)
  = Ok [record_a; record_b; record_c]
  /\ exists results,
       rbind (dict_get sample_body "results" (PList [])) py_iter = Ok results
       /\ Forall2
            (fun img rec =>
               exists alt,
                 getitem img "alt_description" = Ok alt
                 /\ (alt = PNone -> title rec = PStr (lit "Untitled"))
                 /\ (truthy alt = true -> title rec = alt))
            results [record_a; record_b; record_c].
Proof.
  apply (title_defaults_when_null sample_world (lit "boho") 10 initial
           (lit "key") {| status_code := 200; json := Ok sample_body |}
           sample_body [record_a; record_b; record_c]);
    try reflexivity.
  discriminate.
Defined.

Lemma title_defaults_when_falsy_witness :
  truthy (PStr []) = false
  /\ title record_c = PStr (lit "Untitled").
Proof.
  split; [reflexivity |].
  apply (title_defaults_when_falsy (sample_item (PStr []) "c") record_c
           (PStr [])); reflexivity.
Defined.


(* ================================================================== *)
(** * Further properties *)

(** ** Floats: a rounded product or sum stays finite below the overflow
    threshold *)

Lemma shr_spec mrs e n :
  0 <= shr_m mrs ->
  shr_m (fst (shr mrs e n)) = shr_m mrs / 2 ^ Z.max n 0
  /\ snd (shr mrs e n) = e + Z.max n 0.
Proof.
  intros H. destruct n as [| p | p]; cbn [shr fst snd].
  - rewrite Z.max_id. cbn. rewrite Z.div_1_r. lia.
  - rewrite iter_pos_nat, shr_1_iter_m by assumption.
    rewrite positive_nat_Z. replace (Z.max (Zpos p) 0) with (Zpos p) by lia.
    split; reflexivity.
  - replace (Z.max (Zneg p) 0) with 0 by lia. cbn. rewrite Z.div_1_r. lia.
Qed.

Lemma digits2_pos_le (p : positive) (k : Z) :
  Zpos p < 2 ^ k -> Zpos (digits2_pos p) <= k.
Proof.
  intros H. pose proof (digits2_pos_bounds p) as [Hlo _].
  destruct (Z.le_gt_cases (Zpos (digits2_pos p)) k) as [|Hgt]; [assumption |].
  assert (2 ^ k <= 2 ^ (Zpos (digits2_pos p) - 1)).
  { destruct (Z.le_gt_cases 0 k).
    - apply Z.pow_le_mono_r; lia.
    - rewrite (Z.pow_neg_r 2 k) by lia. apply Z.pow_nonneg. lia. }
  lia.
Qed.

Lemma round_nearest_even_bounds m l :
  m <= round_nearest_even m l <= m + 1.
Proof.
  destruct l as [| []]; cbn [round_nearest_even]; try lia.
  destruct (Z.even m); lia.
Qed.

Lemma binary_round_aux_bounded s M E B :
  Zpos (digits2_pos M) + E - 53 <= B -> E <= B -> -1074 <= B -> B + 1 <= 971 ->
  binary_round_aux prec emax s (Zpos M) E loc_Exact = S754_zero s
  \/ exists m' e',
       binary_round_aux prec emax s (Zpos M) E loc_Exact = S754_finite s m' e'
       /\ Zpos m' < 2 ^ 53 /\ e' <= B + 1.
Proof.
  intros HD HE HB1 HB2.
  remember (binary_round_aux prec emax s (Zpos M) E loc_Exact) as r eqn:Er.
  pose proof (digits2_pos_bounds M) as [_ HM].
  set (D := Zpos (digits2_pos M)) in *.
  unfold binary_round_aux, shr_fexp in Er. cbn [Zdigits2 shr_record_of_loc] in Er.
  fold D in Er.
  set (sh1 := fexp prec emax (D + E) - E) in *.
  assert (Hfexp : fexp prec emax (D + E) = Z.max (D + E - 53) (-1074)).
  { unfold fexp, emin, prec, emax. lia. }
  pose proof (shr_spec (Build_shr_record (Zpos M) false false) E sh1
                ltac:(cbn; lia)) as [Hm He].
  destruct (shr (Build_shr_record (Zpos M) false false) E sh1) as [mrs' e'].
  cbn [fst snd shr_m] in Hm, He.
  set (t := Z.max sh1 0) in *.
  assert (Ht : 0 <= t /\ D - 53 <= t) by (subst t sh1; lia).
  assert (He' : -1074 <= e' <= B) by (subst e' t sh1; lia).
  assert (Hq : 0 <= shr_m mrs' < 2 ^ 53).
  { rewrite Hm. split.
    - apply Z.div_pos; [lia | apply Z.pow_pos_nonneg; lia].
    - apply Z.div_lt_upper_bound; [apply Z.pow_pos_nonneg; lia |].
      rewrite <- Z.pow_add_r by lia.
      assert (2 ^ D <= 2 ^ (t + 53)) by (apply Z.pow_le_mono_r; lia). lia. }
  pose proof (round_nearest_even_bounds (shr_m mrs') (loc_of_shr_record mrs')) as Hr.
  set (m1 := round_nearest_even (shr_m mrs') (loc_of_shr_record mrs')) in *.
  set (sh2 := fexp prec emax (Zdigits2 m1 + e') - e') in *.
  assert (Hfexp2 : fexp prec emax (Zdigits2 m1 + e')
                   = Z.max (Zdigits2 m1 + e' - 53) (-1074)).
  { unfold fexp, emin, prec, emax. lia. }
  pose proof (shr_spec (Build_shr_record m1 false false) e' sh2
                ltac:(cbn; lia)) as [Hm2 He2].
  destruct (shr (Build_shr_record m1 false false) e' sh2) as [mrs'' e''].
  cbn [fst snd shr_m] in Hm2, He2.
  assert (Hcases : (m1 = 0 /\ Z.max sh2 0 = 0)
                   \/ (0 < m1 < 2 ^ 53 /\ Z.max sh2 0 = 0)
                   \/ (m1 = 2 ^ 53 /\ Z.max sh2 0 = 1)).
  { destruct m1 as [| p1 | p1] eqn:Em1; try lia.
    - left. split; [reflexivity |]. cbn [Zdigits2] in *. lia.
    - right. cbn [Zdigits2] in *.
      destruct (Z.eq_dec (Zpos p1) (2 ^ 53)) as [Heq | Hneq].
      + right. split; [assumption |].
        assert (Hd1 : Zpos (digits2_pos p1) = 54).
        { apply digits2_pos_unique. rewrite Heq. cbn. lia. }
        lia.
      + left. assert (Hlt : Zpos p1 < 2 ^ 53) by lia.
        pose proof (digits2_pos_le p1 53 Hlt). lia. }
  assert (Hle : (e'' <=? emax - prec) = true).
  { apply Z.leb_le. unfold emax, prec. lia. }
  rewrite Hle in Er.
  destruct Hcases as [[H0 Hs] | [[Hpos Hs] | [H53 Hs]]];
    rewrite Hs in Hm2, He2.
  - left. rewrite Hm2, H0 in Er. exact Er.
  - right. rewrite Z.pow_0_r, Z.div_1_r in Hm2. rewrite Hm2 in Er.
    destruct m1 as [| p1 | p1]; try lia.
    exists p1, e''. split; [exact Er | lia].
  - right. rewrite H53 in Hm2. change (2 ^ 53 / 2 ^ 1) with (Zpos (2 ^ 52)) in Hm2.
    rewrite Hm2 in Er. exists (2 ^ 52)%positive, e''.
    split; [exact Er |]. split; [reflexivity | lia].
Qed.

Lemma fmul_2_5_bounded s m e :
  Zpos m < 2 ^ 53 -> e <= 966 ->
  fmul (S754_finite s m e) lit_2_5 = S754_zero s
  \/ exists m' e',
       fmul (S754_finite s m e) lit_2_5 = S754_finite s m' e'
       /\ Zpos m' < 2 ^ 53 /\ e' <= Z.max (e + 2) (-1074) + 1.
Proof.
  intros Hm He.
  change lit_2_5 with (S754_finite false 5629499534213120 (-51)).
  unfold fmul. cbn [SFmul]. rewrite xorb_false_r.
  apply binary_round_aux_bounded; try lia.
  assert (Zpos (digits2_pos (m * 5629499534213120)) <= 106); [| lia].
  apply digits2_pos_le. rewrite Pos2Z.inj_mul.
  change (2 ^ 106) with (2 ^ 53 * 2 ^ 53).
  assert (Zpos 5629499534213120 < 2 ^ 53) by reflexivity.
  nia.
Qed.

Lemma binary_round_bounded s p E K :
  Zpos p < 2 ^ (K - E) -> E <= K - 53 -> -1074 <= K - 53 -> K - 53 + 1 <= 971 ->
  is_finite (binary_round prec emax s p E) = true.
Proof.
  intros Hp HE HK1 HK2. unfold binary_round.
  pose proof (digits2_pos_le p (K - E) Hp) as Hd.
  set (D := Zpos (digits2_pos p)) in *.
  assert (Hfexp : fexp prec emax (D + E) = Z.max (D + E - 53) (-1074)).
  { unfold fexp, emin, prec, emax. lia. }
  destruct (Z.le_gt_cases E (fexp prec emax (D + E))) as [Hge | Hlt].
  - rewrite shl_align_ge by assumption.
    destruct (binary_round_aux_bounded s p E (K - 53)) as [-> | (m' & e' & -> & _)];
      try reflexivity; fold D; lia.
  - destruct (shl_align_le p E (fexp prec emax (D + E)) ltac:(lia))
      as (mz & -> & Hmz).
    set (E' := fexp prec emax (D + E)) in *.
    assert (Hdz : Zpos (digits2_pos mz) = D + (E - E')).
    { apply (digits2_scaled mz (Zpos p) (E - E') D); try lia.
      apply digits2_pos_bounds. }
    destruct (binary_round_aux_bounded s mz E' (K - 53)) as [-> | (m' & e' & -> & _)];
      try reflexivity; lia.
Qed.

Lemma fadd_5_finite sy my ey :
  Zpos my < 2 ^ 53 -> ey <= 969 ->
  is_finite (fadd (of_int 5) (S754_finite sy my ey)) = true.
Proof.
  intros Hm He.
  change (of_int 5) with (S754_finite false 5629499534213120 (-50)).
  unfold fadd. cbn [SFadd].
  set (ez := Z.min (-50) ey).
  destruct (shl_align_le 5629499534213120 (-50) ez ltac:(subst ez; lia))
    as (a & -> & Ha).
  destruct (shl_align_le my ey ez ltac:(subst ez; lia)) as (b & -> & Hb).
  cbn [fst]. unfold cond_Zopp.
  set (K := Z.max 3 (53 + ey) + 1).
  assert (Hpa : Zpos a < 2 ^ (K - 1 - ez)).
  { rewrite Ha.
    assert (Zpos 5629499534213120 < 2 ^ 53) by reflexivity.
    assert (2 ^ 53 * 2 ^ (-50 - ez) <= 2 ^ (K - 1 - ez)).
    { rewrite <- Z.pow_add_r by (subst ez; lia).
      apply Z.pow_le_mono_r; subst K ez; lia. }
    assert (0 < 2 ^ (-50 - ez)) by (apply Z.pow_pos_nonneg; subst ez; lia).
    nia. }
  assert (Hpb : Zpos b < 2 ^ (K - 1 - ez)).
  { rewrite Hb.
    assert (2 ^ 53 * 2 ^ (ey - ez) <= 2 ^ (K - 1 - ez)).
    { rewrite <- Z.pow_add_r by (subst ez; lia).
      apply Z.pow_le_mono_r; subst K ez; lia. }
    assert (0 < 2 ^ (ey - ez)) by (apply Z.pow_pos_nonneg; subst ez; lia).
    nia. }
  assert (Hpow : 2 ^ (K - ez) = 2 * 2 ^ (K - 1 - ez)).
  { rewrite <- Z.pow_succ_r by (subst K ez; lia). f_equal. lia. }
  assert (Hsum : Z.abs (Zpos a + (if sy then - Zpos b else Zpos b)) < 2 ^ (K - ez)).
  { destruct sy; lia. }
  destruct (Zpos a + (if sy then - Zpos b else Zpos b)) as [| p | p] eqn:Ez;
    cbn [binary_normalize]; [reflexivity | |];
    apply (binary_round_bounded _ p ez K); subst K ez; lia.
Qed.

Lemma affine_finite s m e :
  Zpos m < 2 ^ 53 -> e <= 966 ->
  is_finite (affine (S754_finite s m e)) = true.
Proof.
  intros Hm He. unfold affine.
  destruct (fmul_2_5_bounded s m e Hm He) as [-> | (m' & e' & -> & Hm' & He')].
  - destruct s; reflexivity.
  - apply fadd_5_finite; lia.
Qed.

(** ** Aesthetic Scorer, continued *)

(** X1.  For a logit that is a finite double below [2^1019] in magnitude,
    the scorer returns a finite score: neither the affine transform nor the
    rounding overflows. *)
Theorem moderate_logit_gives_finite_score
  (w : world) (image_url : pyval) (s : state) (l : float) :
  raw_logit w image_url = Ok l ->
  moderate l = true ->
  exists x s',
    compute_aesthetic_score w image_url s = (Ok x, s')
    /\ is_finite x = true.
Proof.
  intros Hraw Hmod.
  destruct (compute_aesthetic_score_returns w image_url s) as (x & s' & Hx).
  { intros e He. congruence. }
  exists x, s'. split; [exact Hx |].
  rewrite (compute_aesthetic_score_finite _ _ _ _ _ Hx), Hraw.
  destruct l as [sg | sg | | sg m e]; try discriminate.
  - destruct sg; reflexivity.
  - cbn [moderate] in Hmod. apply andb_true_iff in Hmod as [Hm He].
    apply Z.ltb_lt in Hm. apply Z.leb_le in He.
    now apply affine_finite.
Qed.

Lemma moderate_logit_gives_finite_score_witness :
  raw_logit sample_world (url record_b) = Ok f_0_125
  /\ moderate f_0_125 = true
  /\ exists x s',
       compute_aesthetic_score sample_world (url record_b) initial = (Ok x, s')
       /\ is_finite x = true.
Proof.
  split; [reflexivity |]. split; [reflexivity |].
  apply (moderate_logit_gives_finite_score sample_world (url record_b) initial
           f_0_125); reflexivity.
Defined.

(** X2.  Whatever the world does, one call of the scorer makes exactly one
    download request, draws at most one random number, and never lets an
    instance of [Exception] escape. *)
Theorem scorer_absorbs_exceptions (w : world) (image_url : pyval) (s : state) :
  let out := compute_aesthetic_score w image_url s in
  trace (snd out) = trace s ++ [Http_image image_url]
  /\ (draws s <= draws (snd out) <= S (draws s))%nat
  /\ match fst out with
     | Ok _ => True
     | Raise e => isinstance_Exception e = false
                  /\ draws (snd out) = draws s
     end.
Proof.
  cbv zeta. rewrite compute_aesthetic_score_run. cbv zeta.
  destruct (attempt w image_url) as [x | e]; cbn [fst snd trace draws].
  - repeat split; lia.
  - destruct (isinstance_Exception e) eqn:E; cbn [fst snd trace draws];
      repeat split; try lia. exact E.
Qed.

Lemma score_image_run w img s :
  score_image w img s
  = match compute_aesthetic_score w (url img) s with
    | (Ok x, s') => (Ok (set_score img x), s')
    | (Raise e, s') => (Raise e, s')
    end.
Proof.
  unfold score_image, bind, ret.
  destruct (compute_aesthetic_score w (url img) s) as [[x | e] s']; reflexivity.
Qed.

(** X3.  When the scoring loop returns, it has requested every image once,
    in the order of the records, kept their number, and drawn one random
    number for each record whose [try] block failed. *)
Theorem scoring_loop_footprint
  (w : world) (images scored : list image_record) (s s' : state) :
  score_all w images s = (Ok scored, s') ->
  trace s' = trace s ++ List.map (fun img => Http_image (url img)) images
  /\ List.length scored = List.length images
  /\ draws s' = (draws s + List.length (filter (attempt_fails w) images))%nat.
Proof.
  revert scored s s'. induction images as [| img images IH];
    intros scored s s' H.
  - cbn in H. injection H as <- <-. cbn. rewrite app_nil_r. repeat split. lia.
  - unfold score_all in *. cbn [mapM] in H. unfold bind at 1 in H.
    rewrite score_image_run, compute_aesthetic_score_run in H. cbv zeta in H.
    cbn [filter]. unfold attempt_fails at 1.
    destruct (attempt w (url img)) as [x | e].
    + unfold bind at 1 in H.
      destruct (mapM (score_image w) images _) as [[ys | e] s2] eqn:E;
        [| discriminate].
      cbn in H. injection H as <- <-.
      destruct (IH _ _ _ E) as (Ht & Hl & Hd). cbn [trace draws] in Ht, Hd.
      rewrite Ht, Hd, <- app_assoc. cbn [List.map List.length app].
      repeat split. now rewrite Hl.
    + destruct (isinstance_Exception e); [| discriminate].
      unfold bind at 1 in H.
      destruct (mapM (score_image w) images _) as [[ys | e'] s2] eqn:E;
        [| discriminate].
      cbn in H. injection H as <- <-.
      destruct (IH _ _ _ E) as (Ht & Hl & Hd). cbn [trace draws] in Ht, Hd.
      rewrite Ht, Hd, <- app_assoc. cbn [List.map List.length app].
      repeat split; [now rewrite Hl | lia].
Qed.

Lemma scoring_loop_footprint_witness :
  score_all sample_world [record_a; record_b; record_c] initial
  = (Ok [set_score record_a (uniform 3 7 (random_float 5));
         set_score record_b f_5_31;
         set_score record_c S754_nan],
     {| trace := [Http_image (url record_a); Http_image (url record_b);
                  Http_image (url record_c)];
        draws := 1 |})
  /\ draws {| trace := [Http_image (url record_a); Http_image (url record_b);
                        Http_image (url record_c)];
              draws := 1 |}
     = (draws initial
        + List.length (filter (attempt_fails sample_world)
                         [record_a; record_b; record_c]))%nat.
Proof.
  assert (H : score_all sample_world [record_a; record_b; record_c] initial
              = (Ok [set_score record_a (uniform 3 7 (random_float 5));
                     set_score record_b f_5_31;
                     set_score record_c S754_nan],
                 {| trace := [Http_image (url record_a);
                              Http_image (url record_b);
                              Http_image (url record_c)];
                    draws := 1 |})) by reflexivity.
  split; [exact H |].
  exact (proj2 (proj2 (scoring_loop_footprint sample_world _ _ _ _ H))).
Defined.

(** ** Image Source Client, continued *)


Lemma record_of_result_fields img r :
  record_of_result img = Ok r ->
  exists urls user links,
    getitem img "urls" = Ok urls /\ getitem urls "regular" = Ok (url r)
    /\ getitem img "user" = Ok user /\ getitem user "name" = Ok (author r)
    /\ getitem img "links" = Ok links /\ getitem links "html" = Ok (link r)
    /\ score r = None.
Proof.
  unfold record_of_result. intros H.
  destruct (getitem img "alt_description") as [alt |]; [| discriminate].
  cbn [rbind] in H.
  destruct (getitem img "urls") as [urls |]; [| discriminate].
  cbn [rbind] in H.
  destruct (getitem urls "regular") as [regular |] eqn:E1; [| discriminate].
  cbn [rbind] in H.
  destruct (getitem img "user") as [user |]; [| discriminate].
  cbn [rbind] in H.
  destruct (getitem user "name") as [name |] eqn:E2; [| discriminate].
  cbn [rbind] in H.
  destruct (getitem img "links") as [links |]; [| discriminate].
  cbn [rbind] in H.
  destruct (getitem links "html") as [html |] eqn:E3; [| discriminate].
  cbn [rbind] in H. injection H as <-.
  exists urls, user, links. cbn [url author link score]. repeat split; assumption.
Qed.

(** X5.  For a successful search response the client returns as many
    records as there are results, in the same order; each record carries the
    result's [urls.regular], [user.name] and [links.html], and no score
    yet. *)
Theorem records_follow_results
  (w : world) (query : str) (count : Z) (s : state)
  (key : str) (r : response) (data : pyval) (records : list image_record) :
  secrets_UNSPLASH_ACCESS_KEY w = Some key -> key <> [] ->
  requests_get_search w query count key = Ok r ->
  status_code r = 200 -> json r = Ok data ->
  fst (fetch_unsplash_images w query count s) = Ok records ->
  exists results,
    rbind (dict_get data "results" (PList [])) py_iter = Ok results
    /\ List.length records = List.length results
    /\ Forall2
         (fun img rec =>
            rbind (getitem img "urls") (fun v => getitem v "regular")
            = Ok (url rec)
            /\ rbind (getitem img "user") (fun v => getitem v "name")
               = Ok (author rec)
            /\ rbind (getitem img "links") (fun v => getitem v "html")
               = Ok (link rec)
            /\ score rec = None)
         results records.
Proof.
  intros Hkey Hne Hget Hstatus Hjson Hrec.
  rewrite (fetch_success _ _ _ _ _ _ _ Hkey Hne Hget Hstatus Hjson) in Hrec.
  cbn [fst] in Hrec. unfold records_of_data in Hrec.
  destruct (dict_get data "results" (PList [])) as [v |]; [| discriminate].
  cbn [rbind] in *.
  destruct (py_iter v) as [results |]; [| discriminate]. cbn [rbind] in Hrec.
  exists results. split; [reflexivity |].
  apply rmap_Forall2 in Hrec. split.
  - symmetry. eapply Forall2_length; eassumption.
  - eapply Forall2_impl; [| exact Hrec]. intros img rec Himg.
    destruct (record_of_result_fields _ _ Himg)
      as (urls & user & links & H1 & H2 & H3 & H4 & H5 & H6 & Hs).
    rewrite H1, H3, H5. cbn [rbind]. repeat split; assumption.
Qed.

Lemma records_follow_results_witness :
  exists results,
    rbind (dict_get sample_body "results" (PList [])) py_iter = Ok results
    /\ List.length [record_a; record_b; record_c] = List.length results
    /\ Forall2
         (fun img rec =>
            rbind (getitem img "urls") (fun v => getitem v "regular")
            = Ok (url rec)
            /\ rbind (getitem img "user") (fun v => getitem v "name")
               = Ok (author rec)
            /\ rbind (getitem img "links") (fun v => getitem v "html")
               = Ok (link rec)
            /\ score rec = None)
         results [record_a; record_b; record_c].
Proof.
  apply (records_follow_results sample_world (lit "boho") 10 initial
           (lit "key") {| status_code := 200; json := Ok sample_body |}
           sample_body [record_a; record_b; record_c]);
    try reflexivity.
  discriminate.
Defined.


Lemma rmap_raises {A B} (f : A -> result B) l a e :
  In a l -> f a = Raise e -> exists e', rmap f l = Raise e'.
Proof.
  induction l as [| x l IH]; intros Hin Hf; [contradiction |].
  cbn [rmap]. destruct (f x) as [y | e0] eqn:Ex; [| now exists e0].
  cbn [rbind]. destruct Hin as [-> | Hin]; [congruence |].
  destruct (IH Hin Hf) as [e' ->]. now exists e'.
Qed.

(** X7.  One result that cannot be turned into a record (a field missing,
    or of the wrong shape) makes the whole call raise: the client returns no
    partial list. *)
Theorem malformed_result_raises
  (w : world) (query : str) (count : Z) (s : state)
  (key : str) (r : response) (data : pyval)
  (results : list pyval) (img : pyval) (e : exn) :
  secrets_UNSPLASH_ACCESS_KEY w = Some key -> key <> [] ->
  requests_get_search w query count key = Ok r ->
  status_code r = 200 -> json r = Ok data ->
  rbind (dict_get data "results" (PList [])) py_iter = Ok results ->
  In img results -> record_of_result img = Raise e ->
  exists e', fst (fetch_unsplash_images w query count s) = Raise e'.
Proof.
  intros Hkey Hne Hget Hstatus Hjson Hres Hin Himg.
  rewrite (fetch_success _ _ _ _ _ _ _ Hkey Hne Hget Hstatus Hjson).
  cbn [fst]. unfold records_of_data.
  destruct (dict_get data "results" (PList [])) as [v |]; [| discriminate].
  cbn [rbind] in *. rewrite Hres. cbn [rbind].
  exact (rmap_raises _ _ _ _ Hin Himg).
Qed.

(** ** The pass over one topic *)

Lemma bind_emit {A} (e : event) (k : unit -> M A) (s : state) :
  bind (emit e) k s = k tt {| trace := trace s ++ [e]; draws := draws s |}.
Proof. reflexivity. Qed.

(** X8.  An exception raised by the search request itself is not caught:
    the pass over the topic raises it, after the topic header and the
    request and before anything is scored or shown. *)
Theorem search_exception_propagates
  (w : world) (topic : str) (s : state) (key : str) (e : exn) :
  secrets_UNSPLASH_ACCESS_KEY w = Some key -> key <> [] ->
  requests_get_search w topic 10 key = Raise e ->
  process_topic w topic s
  = (Raise e, {| trace := trace s ++ [St_topic_header topic;
                                      Http_search topic 10 key];
                 draws := draws s |}).
Proof.
  intros Hkey Hne Hget. unfold process_topic. rewrite bind_emit.
  unfold bind at 1. unfold fetch_unsplash_images, UNSPLASH_ACCESS_KEY.
  rewrite Hkey. destruct key as [| c key]; [contradiction |].
  unfold requests_get. unfold bind at 1. rewrite bind_emit.
  unfold lift. rewrite Hget. cbn [trace draws]. now rewrite <- app_assoc.
Qed.

(** X9.  When the client returns no record for a topic, the pass shows the
    "No images" warning and ends: nothing is downloaded, scored, drawn or
    shown. *)
Theorem no_images_warns_and_skips
  (w : world) (topic : str) (s s1 : state) :
  fetch_unsplash_images w topic 10
    {| trace := trace s ++ [St_topic_header topic]; draws := draws s |}
  = (Ok [], s1) ->
  process_topic w topic s
  = (Ok tt, {| trace := trace s1 ++ [St_warning (NoImagesFor topic)];
               draws := draws s1 |}).
Proof.
  intros Hfetch. unfold process_topic. rewrite bind_emit.
  unfold bind at 1. now rewrite Hfetch.
Qed.

(** ** Ranker, continued *)

(** X10.  Whatever the scores, NaN included, ranking loses and duplicates
    nothing: the ranked list is a rearrangement of the scored records. *)
Theorem ranked_is_rearrangement (images out : list image_record) :
  ranked images = Ok out -> Permutation out images.
Proof.
  unfold ranked. intros H.
  destruct (rmap get_score images) as [keys |] eqn:Hk; [| discriminate].
  cbn [rbind] in H. injection H as <-.
  destruct (rmap_get_score_inv _ _ Hk) as [Hsnd _].
  transitivity (List.map snd (combine keys images));
    [apply Permutation_map, (sorted_Permutation fst true) | now rewrite Hsnd].
Qed.

Lemma ranked_is_rearrangement_witness :
  ranked ten_records = Ok (rev ten_records)
  /\ Permutation (rev ten_records) ten_records.
Proof.
  assert (H : ranked ten_records = Ok (rev ten_records)) by reflexivity.
  split; [exact H |]. exact (ranked_is_rearrangement _ _ H).
Defined.

Lemma rmap_get_score_raises images e :
  rmap get_score images = Raise e ->
  e = KeyError /\ exists img, In img images /\ score img = None.
Proof.
  induction images as [| img images IH]; cbn [rmap]; [discriminate |].
  unfold get_score at 1. destruct (score img) as [x |] eqn:Ex; cbn [rbind].
  - destruct (rmap get_score images) as [ks | e']; cbn [rbind];
      [discriminate |].
    intros H. injection H as <-. destruct (IH eq_refl) as (-> & i & Hi & Hs).
    split; [reflexivity |]. exists i. split; [now right | assumption].
  - intros H. injection H as <-. split; [reflexivity |].
    exists img. split; [now left | assumption].
Qed.

(** X11.  Ranking raises exactly when some record has no score, and what it
    raises then is [KeyError]. *)
Theorem ranked_raises_iff_unscored (images : list image_record) :
  (exists img, In img images /\ score img = None)
  <-> ranked images = Raise KeyError.
Proof.
  unfold ranked. split.
  - intros (img & Hin & Hs).
    destruct (rmap_raises get_score images img KeyError Hin) as [e He].
    { unfold get_score. now rewrite Hs. }
    rewrite He. cbn [rbind].
    now destruct (rmap_get_score_raises _ _ He) as [-> _].
  - destruct (rmap get_score images) as [keys | e] eqn:Hk; cbn [rbind];
      [discriminate |].
    intros _. now destruct (rmap_get_score_raises _ _ Hk) as [_ H].
Qed.

Section Stability.
Context {A : Type}.
Variable key : A -> float.
Variable P : A -> bool.

Lemma insert_filter_in x l :
  ties key P (x :: l) -> P x = true ->
  filter P (insert key x l) = x :: filter P l.
Proof.
  intros Ht Hx. induction l as [| y l IH]; cbn [insert filter].
  - now rewrite Hx.
  - destruct (flt (key y) (key x)) eqn:E; cbn [filter].
    + destruct (P y) eqn:Py.
      * rewrite (Ht y x) in E; [discriminate | | | assumption | assumption];
          cbn; auto.
      * apply IH. intros a b Ha Hb. apply Ht; cbn in *; tauto.
    + now rewrite Hx.
Qed.

Lemma insert_filter_out x l :
  P x = false -> filter P (insert key x l) = filter P l.
Proof.
  intros Hx. induction l as [| y l IH]; cbn [insert filter].
  - now rewrite Hx.
  - destruct (flt (key y) (key x)); cbn [filter].
    + now rewrite IH.
    + now rewrite Hx.
Qed.

Lemma sort_ascending_filter l :
  ties key P l -> filter P (sort_ascending key l) = filter P l.
Proof.
  induction l as [| x l IH]; [reflexivity |]. intros Ht.
  assert (Htl : ties key P l).
  { intros a b Ha Hb. apply Ht; now right. }
  cbn [sort_ascending fold_right]. fold (sort_ascending key l).
  cbn [filter]. destruct (P x) eqn:Px.
  - rewrite insert_filter_in, IH; try assumption; [reflexivity |].
    intros a b Ha Hb. apply Ht.
    + destruct Ha as [-> | Ha]; [now left | right].
      now apply (Permutation_in _ (sort_ascending_Permutation key l)).
    + destruct Hb as [-> | Hb]; [now left | right].
      now apply (Permutation_in _ (sort_ascending_Permutation key l)).
  - now rewrite insert_filter_out, IH.
Qed.

Lemma filter_rev (l : list A) : filter P (rev l) = rev (filter P l).
Proof.
  induction l as [| x l IH]; [reflexivity |].
  cbn [rev filter]. rewrite filter_app, IH. cbn [filter].
  destruct (P x); cbn [rev]; [reflexivity | now rewrite app_nil_r].
Qed.

(** Elements none of which is smaller than another keep their order. *)
Lemma sorted_filter reverse l :
  ties key P l -> filter P (sorted key reverse l) = filter P l.
Proof.
  intros Ht. unfold sorted. destruct reverse.
  - rewrite filter_rev, sort_ascending_filter, filter_rev, rev_involutive;
      [reflexivity |].
    intros a b Ha Hb. apply Ht; now apply in_rev.
  - now apply sort_ascending_filter.
Qed.
End Stability.

(** X12.  When no score is NaN, ranking is stable: records none of which has
    a score smaller than another's (records with the same score, that is)
    come out in the order in which they went in. *)
Theorem ranked_is_stable
  (images out : list image_record) (P : image_record -> bool) :
  Forall (fun img => exists x, score img = Some x /\ is_nan x = false) images ->
  ranked images = Ok out ->
  (forall a b x y, In a images -> In b images ->
     P a = true -> P b = true ->
     score a = Some x -> score b = Some y -> flt x y = false) ->
  filter P out = filter P images.
Proof.
  unfold ranked. intros _ H Hties.
  destruct (rmap get_score images) as [keys |] eqn:Hk; [| discriminate].
  cbn [rbind] in H.
  assert (Hout : out = List.map snd (sorted fst true (combine keys images)))
    by congruence.
  subst out. clear H.
  destruct (rmap_get_score_inv _ _ Hk) as [Hsnd Hinv].
  set (pairs := combine keys images) in *.
  assert (Hmap : forall l : list (float * image_record),
            filter P (List.map snd l)
            = List.map snd (filter (fun p => P (snd p)) l)).
  { induction l as [| p l IH]; [reflexivity |].
    cbn [List.map filter].
    destruct (P (snd p)); cbn [List.map]; now rewrite IH. }
  rewrite Hmap, sorted_filter.
  - rewrite <- Hmap. now rewrite Hsnd.
  - intros a b Ha Hb Pa Pb. rewrite Forall_forall in Hinv.
    apply (Hties (snd a) (snd b)); try assumption;
      try (rewrite <- Hsnd; now apply in_map); now apply Hinv.
Qed.

Lemma ranked_is_stable_witness :
  ranked (ten_records ++ [set_score record_a (of_int 3)])
  = Ok (rev (skipn 3 ten_records)
        ++ [set_score record_b (of_int 3); set_score record_a (of_int 3)]
        ++ rev (firstn 2 ten_records))
  /\ filter (fun r => match score r with
                      | Some x => SFeqb x (of_int 3)
                      | None => false
                      end)
            (rev (skipn 3 ten_records)
             ++ [set_score record_b (of_int 3); set_score record_a (of_int 3)]
             ++ rev (firstn 2 ten_records))
     = filter (fun r => match score r with
                        | Some x => SFeqb x (of_int 3)
                        | None => false
                        end)
              (ten_records ++ [set_score record_a (of_int 3)]).
Proof.
  assert (H : ranked (ten_records ++ [set_score record_a (of_int 3)])
              = Ok (rev (skipn 3 ten_records)
                    ++ [set_score record_b (of_int 3);
                        set_score record_a (of_int 3)]
                    ++ rev (firstn 2 ten_records))) by reflexivity.
  split; [exact H |].
  apply (ranked_is_stable (ten_records ++ [set_score record_a (of_int 3)])
           _ _ ltac:(repeat constructor; eexists; split; reflexivity) H).
  intros a b x y Ha Hb Pa Pb Hx Hy. rewrite Hx in Pa. rewrite Hy in Pb.
  clear - Pa Pb. unfold SFeqb in *. unfold flt, SFltb.
  destruct x as [sx | sx | | sx mx ex]; try discriminate;
    try (destruct sx; discriminate).
  destruct y as [sy | sy | | sy my ey]; try discriminate;
    try (destruct sy; discriminate).
  cbn [SFcompare of_int] in *.
  change (of_int 3) with (S754_finite false 6755399441055744 (-51)) in *.
  cbn [SFcompare] in *.
  destruct sx, sy; try discriminate.
  destruct (ex ?= -51) eqn:E1; try discriminate.
  destruct (ey ?= -51) eqn:E2; try discriminate.
  apply Z.compare_eq in E1, E2. subst. rewrite Z.compare_refl.
  destruct (Pos.compare_cont Eq mx 6755399441055744) eqn:C1; try discriminate.
  destruct (Pos.compare_cont Eq my 6755399441055744) eqn:C2; try discriminate.
  apply Pos.compare_eq in C1, C2. subst.
  now rewrite Pos.compare_cont_refl.
Defined.

(** ** Topic Selector, continued *)

Lemma strip_sublist s c : In c (strip s) -> In c s.
Proof.
  intros H. destruct (strip_spec s) as (a & b & Hs & _).
  rewrite Hs. apply in_or_app. right. apply in_or_app. now left.
Qed.

Lemma lstrip_fixed s :
  match s with [] => True | c :: _ => isspace c = false end -> lstrip s = s.
Proof. destruct s as [| c s]; [reflexivity |]. cbn. now intros ->. Qed.

Lemma strip_fixed c s :
  isspace c = false -> isspace (last (c :: s) c) = false ->
  strip (c :: s) = c :: s.
Proof.
  intros Hc Hl. unfold strip, rstrip.
  rewrite (lstrip_fixed (c :: s)) by exact Hc.
  rewrite lstrip_fixed; [apply rev_involutive |].
  destruct (rev (c :: s)) as [| z u] eqn:E.
  - exact I.
  - assert (Hz : last (c :: s) c = z).
    { rewrite <- (rev_involutive (c :: s)), E. cbn [rev]. apply last_last. }
    now rewrite <- Hz.
Qed.

Lemma strip_idempotent s : strip (strip s) = strip s.
Proof.
  destruct (strip_spec s) as (a & b & _ & _ & _ & H).
  destruct (strip s) as [| c t]; [reflexivity |].
  destruct H as [Hc Hl]. now apply strip_fixed.
Qed.

Lemma custom_topics_Forall_well_formed (custom_text : str) :
  Forall well_formed (custom_topics custom_text).
Proof.
  apply Forall_forall. intros t Ht.
  apply custom_topics_In in Ht as (Hne & piece & Hin & ->).
  pose proof (split_no_sep comma custom_text) as Hsep.
  rewrite Forall_forall in Hsep. specialize (Hsep piece Hin).
  repeat split; [assumption | | apply strip_idempotent].
  intros Hc. apply Hsep. now apply strip_sublist.
Qed.

(** X13.  Every topic the free-text parser delivers is well formed: it is
    not empty, holds no comma, and starts and ends with a character that is
    not whitespace (so that [strip] leaves it unchanged). *)
Theorem custom_topics_are_well_formed (custom_text : str) :
  Forall (fun t => well_formed t
                   /\ isspace (hd comma t) = false
                   /\ isspace (last t comma) = false)
         (custom_topics custom_text).
Proof.
  apply Forall_forall. intros t Ht.
  apply custom_topics_In in Ht as (Hne & piece & Hin & ->).
  pose proof (split_no_sep comma custom_text) as Hsep.
  rewrite Forall_forall in Hsep. specialize (Hsep piece Hin).
  destruct (strip_spec piece) as (a & b & _ & _ & _ & H).
  split; [| destruct (strip piece) as [| c u] eqn:E; [contradiction |]].
  - repeat split; [assumption | | apply strip_idempotent].
    intros Hc. apply Hsep. now apply strip_sublist.
  - destruct H as [Hc Hl]. split; [exact Hc |].
    assert (Hlast : forall (l : list char) x y, l <> [] -> last l x = last l y).
    { induction l as [| z l IH]; [contradiction |]. intros x y _.
      destruct l as [| z' l']; [reflexivity |]. cbn [last].
      apply (IH x y). discriminate. }
    rewrite (Hlast (c :: u) comma c) by discriminate. exact Hl.
Qed.

Lemma strip_empty_iff s : strip s = [] <-> forallb isspace s = true.
Proof.
  split.
  - intros H. destruct (strip_spec s) as (a & b & Hs & Ha & Hb & _).
    rewrite H in Hs. cbn [app] in Hs. rewrite Hs, forallb_app, Ha, Hb.
    reflexivity.
  - intros H. unfold strip. now rewrite (lstrip_all_space s H).
Qed.

Lemma forallb_join_split (f : char -> bool) s :
  forallb (fun c => f c || (c =? comma)%N) s
  = forallb (forallb f) (split comma s).
Proof.
  induction s as [| c s IH]; [reflexivity |].
  cbn [forallb split]. rewrite IH.
  destruct (N.eqb_spec c comma) as [-> | Hne].
  - cbn [forallb]. now rewrite orb_true_r.
  - rewrite orb_false_r.
    pose proof (split_nonempty comma s) as Hs.
    destruct (split comma s) as [| p ps]; [contradiction |].
    cbn [forallb]. now rewrite andb_assoc.
Qed.

(** X14.  The free text gives no topic exactly when it holds nothing but
    whitespace and commas; with nothing selected either, that is when the
    selection is empty and the page stops at its prompt. *)
Theorem no_topic_iff_blank (predefined : list str) (custom_text : str) :
  (custom_topics custom_text = []
   <-> forallb blank_or_comma custom_text = true)
  /\ (selected_topics predefined custom_text = []
      <-> predefined = [] /\ forallb blank_or_comma custom_text = true).
Proof.
  assert (H : custom_topics custom_text = []
              <-> forallb blank_or_comma custom_text = true).
  { unfold blank_or_comma. rewrite forallb_join_split.
    unfold custom_topics.
    induction (split comma custom_text) as [| p ps IH];
      [split; reflexivity |].
    cbn [filter forallb]. rewrite andb_true_iff, <- IH, <- strip_empty_iff.
    destruct (strip p) as [| c u] eqn:E; cbn [nonempty List.map].
    - tauto.
    - split; [discriminate | intros [Hd _]; discriminate]. }
  split; [exact H |].
  unfold selected_topics. rewrite <- H. split.
  - intros Happ. now apply app_eq_nil in Happ.
  - intros [-> ->]. reflexivity.
Qed.

Lemma split_app_sep t u :
  ~ In comma t -> split comma (t ++ comma :: u) = t :: split comma u.
Proof.
  induction t as [| c t IH]; intros Hn; cbn [app split].
  - now rewrite N.eqb_refl.
  - destruct (N.eqb_spec c comma) as [-> | _]; [exfalso; apply Hn; now left |].
    rewrite IH by (intros H; apply Hn; now right). reflexivity.
Qed.

Lemma split_no_comma t : ~ In comma t -> split comma t = [t].
Proof.
  induction t as [| c t IH]; intros Hn; cbn [split]; [reflexivity |].
  destruct (N.eqb_spec c comma) as [-> | _]; [exfalso; apply Hn; now left |].
  rewrite IH by (intros H; apply Hn; now right). reflexivity.
Qed.

Lemma custom_topics_banner topics :
  Forall well_formed topics -> custom_topics (banner_text topics) = topics.
Proof.
  unfold banner_text.
  induction 1 as [| t ts (Hne & Hnc & Hst) Hts IH]; [reflexivity |].
  destruct ts as [| t' ts'].
  - cbn [join_str]. unfold custom_topics. rewrite split_no_comma by assumption.
    cbn [filter]. rewrite Hst.
    destruct t; [contradiction |]. cbn [nonempty List.map]. now rewrite Hst.
  - change (join_str (lit ", ") (t :: t' :: ts'))
      with (t ++ comma :: 32%N :: join_str (lit ", ") (t' :: ts')).
    unfold custom_topics in *. rewrite split_app_sep by assumption.
    cbn [filter]. rewrite Hst.
    destruct t as [| c0 t0]; [contradiction |]. cbn [nonempty List.map].
    rewrite Hst. f_equal.
    set (v := join_str (lit ", ") (t' :: ts')) in *.
    cbn [split]. change (32 =? comma)%N with false. cbv iota.
    pose proof (split_nonempty comma v) as Hs.
    destruct (split comma v) as [| p ps]; [contradiction |].
    cbn [filter] in *.
    change (strip (32%N :: p)) with (strip p).
    destruct (nonempty (strip p)); cbn [List.map] in *; [| exact IH].
    change (strip (32%N :: p)) with (strip p). exact IH.
Qed.

(** X15.  The banner text round-trips: typing the comma-and-space joined
    list of the free-text topics back into the text box gives the same
    topics again. *)
Theorem banner_text_round_trip (custom_text : str) :
  custom_topics (banner_text (custom_topics custom_text))
  = custom_topics custom_text.
Proof.
  apply custom_topics_banner, custom_topics_Forall_well_formed.
Qed.

(** ** What a computation adds to the trace *)

Lemma emits_ret {A} P (a : A) : emits P (ret a).
Proof. intros s. exists []. cbn. now rewrite app_nil_r. Qed.

Lemma emits_lift {A} P (r : result A) : emits P (lift r).
Proof. intros s. exists []. cbn. now rewrite app_nil_r. Qed.

Lemma emits_emit (P : event -> Prop) e : P e -> emits P (emit e).
Proof. intros He s. exists [e]. cbn. split; [reflexivity | now constructor]. Qed.

Lemma emits_bind {A B} P (c : M A) (k : A -> M B) :
  emits P c -> (forall a, emits P (k a)) -> emits P (bind c k).
Proof.
  intros Hc Hk s. unfold bind. destruct (Hc s) as (t & Ht & HP).
  destruct (c s) as [[a | e] s'] eqn:E; cbn [snd] in *.
  - destruct (Hk a s') as (u & Hu & HQ). exists (t ++ u).
    rewrite Hu, Ht, app_assoc. split; [reflexivity | now apply Forall_app].
  - now exists t.
Qed.

Lemma emits_try {A} P (body handler : M A) :
  emits P body -> emits P handler ->
  emits P (try_except_Exception body handler).
Proof.
  intros Hb Hh s. unfold try_except_Exception.
  destruct (Hb s) as (t & Ht & HP).
  destruct (body s) as [[a | e] s'] eqn:E; cbn [snd] in *.
  - now exists t.
  - destruct (isinstance_Exception e); [| now exists t].
    destruct (Hh s') as (u & Hu & HQ). exists (t ++ u).
    rewrite Hu, Ht, app_assoc. split; [reflexivity | now apply Forall_app].
Qed.

Lemma emits_mapM {A B} P (f : A -> M B) (l : list A) :
  (forall a, emits P (f a)) -> emits P (mapM f l).
Proof.
  intros Hf. induction l as [| x l IH]; cbn [mapM]; [apply emits_ret |].
  apply emits_bind; [apply Hf |]. intros y.
  apply emits_bind; [exact IH |]. intros ys. apply emits_ret.
Qed.

Lemma emits_forM_ {A} P (f : A -> M unit) (l : list A) :
  (forall a, emits P (f a)) -> emits P (forM_ f l).
Proof.
  intros Hf. induction l as [| x l IH]; cbn [forM_]; [apply emits_ret |].
  apply emits_bind; [apply Hf | intros _; exact IH].
Qed.

Lemma fetch_emits_inner w topic :
  emits (inner_event w topic) (fetch_unsplash_images w topic 10).
Proof.
  unfold fetch_unsplash_images, requests_get, UNSPLASH_ACCESS_KEY.
  destruct (secrets_UNSPLASH_ACCESS_KEY w) as [[| c key] |] eqn:Hkey.
  - apply emits_bind; [now apply emits_emit | intros _; apply emits_ret].
  - apply emits_bind.
    + apply emits_bind; [| intros _; apply emits_lift].
      apply emits_emit. cbn [inner_event].
      repeat (split; try reflexivity); try assumption. intros H; discriminate H.
    + intros r. destruct (negb (status_code r =? 200)).
      * apply emits_bind; [now apply emits_emit | intros _; apply emits_ret].
      * apply emits_bind; [apply emits_lift | intros d; apply emits_lift].
  - apply emits_bind; [now apply emits_emit | intros _; apply emits_ret].
Qed.

Lemma score_all_emits_inner w topic images :
  emits (inner_event w topic) (score_all w images).
Proof.
  apply emits_mapM. intros img. unfold score_image.
  apply emits_bind; [| intros x; apply emits_ret].
  unfold compute_aesthetic_score, download, random_uniform.
  apply emits_try.
  - apply emits_bind.
    + apply emits_bind; [now apply emits_emit | intros _; apply emits_lift].
    + intros content. apply emits_bind; [apply emits_lift |]. intros im.
      apply emits_bind; [apply emits_lift |]. intros x. apply emits_lift.
  - intros s. exists []. cbn. now rewrite app_nil_r.
Qed.

Lemma display_emits_inner w topic ranked_images :
  emits (inner_event w topic) (display w ranked_images).
Proof.
  unfold display. apply emits_forM_. intros img. unfold show_image.
  apply emits_bind; [apply emits_lift |]. intros x.
  apply emits_bind; [apply emits_lift |]. intros _. now apply emits_emit.
Qed.

(** The pass over a topic shows the header of the topic, and after it
    nothing but inner events. *)
Lemma process_topic_trace w topic s :
  exists added,
    trace (snd (process_topic w topic s))
    = trace s ++ St_topic_header topic :: added
    /\ Forall (inner_event w topic) added.
Proof.
  unfold process_topic. rewrite bind_emit.
  set (s1 := {| trace := trace s ++ [St_topic_header topic];
                draws := draws s |}).
  assert (H : emits (inner_event w topic)
                (bind (fetch_unsplash_images w topic 10) (fun images =>
                   match images with
                   | [] => emit (St_warning (NoImagesFor topic))
                   | _ :: _ =>
                       bind (score_all w images) (fun scored =>
                       bind (lift (ranked scored)) (fun ranked_images =>
                       display w ranked_images))
                   end))).
  { apply emits_bind; [apply fetch_emits_inner |]. intros [| img images].
    - now apply emits_emit.
    - apply emits_bind; [apply score_all_emits_inner |]. intros scored.
      apply emits_bind; [apply emits_lift |]. intros r.
      apply display_emits_inner. }
  destruct (H s1) as (added & Ht & HP). exists added.
  split; [| exact HP]. rewrite Ht. subst s1. cbn [trace].
  now rewrite <- app_assoc.
Qed.

Lemma topic_headers_app t u :
  topic_headers (t ++ u) = topic_headers t ++ topic_headers u.
Proof. unfold topic_headers. apply flat_map_app. Qed.

Lemma inner_no_headers w topic added :
  Forall (inner_event w topic) added -> topic_headers added = [].
Proof.
  induction 1 as [| e l He _ IH]; [reflexivity |].
  cbn [topic_headers flat_map]. fold (topic_headers l). rewrite IH.
  destruct e; try reflexivity. contradiction.
Qed.

Lemma inner_search_is_for w topics topic e :
  In topic topics -> inner_event w topic e -> search_is_for w topics e.
Proof.
  intros Hin. destruct e; cbn; try tauto.
  intros (-> & H). tauto.
Qed.

(** The loop over the topics: the headers shown are an initial part of the
    topics, all of them when the loop returns, and every search is for one of
    the topics. *)
Lemma topic_loop_trace w (all topics : list str) s :
  (forall t, In t topics -> In t all) ->
  exists added n,
    trace (snd (forM_ (process_topic w) topics s)) = trace s ++ added
    /\ topic_headers added = firstn n topics
    /\ (fst (forM_ (process_topic w) topics s) = Ok tt
        -> n = List.length topics)
    /\ Forall (search_is_for w all) added.
Proof.
  revert s. induction topics as [| topic topics IH]; intros s Hall.
  - exists [], 0%nat. cbn. rewrite app_nil_r. repeat split. constructor.
  - cbn [forM_]. unfold bind.
    destruct (process_topic_trace w topic s) as (inner & Ht & HP).
    assert (HS : Forall (search_is_for w all) (St_topic_header topic :: inner)).
    { constructor; [exact I |]. eapply Forall_impl; [| exact HP].
      intros e. apply inner_search_is_for, Hall. now left. }
    destruct (process_topic w topic s) as [[[] | e] s1]; cbn [snd] in Ht.
    + destruct (IH s1) as (added & n & Ht' & Hh & Hn & HQ).
      { intros t Hin. apply Hall. now right. }
      exists ((St_topic_header topic :: inner) ++ added), (S n).
      rewrite Ht', Ht, <- app_assoc. split; [reflexivity |].
      rewrite topic_headers_app. cbn [topic_headers flat_map app firstn].
      fold (topic_headers inner). rewrite (inner_no_headers _ _ _ HP), Hh.
      split; [reflexivity |]. split.
      * intros Hok. cbn [List.length]. f_equal. now apply Hn.
      * inversion HS; subst. constructor; [assumption |].
        apply Forall_app. split; assumption.
    + exists (St_topic_header topic :: inner), 1%nat.
      cbn [fst snd]. split; [exact Ht |].
      cbn [topic_headers flat_map app firstn]. fold (topic_headers inner).
      rewrite (inner_no_headers _ _ _ HP).
      split; [reflexivity |]. split; [discriminate | exact HS].
Qed.

(** ** The page, continued *)

(** The page once a topic is selected: the banner, the model load, the loop
    and the closing note. *)
Lemma script_run w s t ts :
  selected_topics (multiselect w) (text_input w) = t :: ts ->
  script w s
  = let s1 := {| trace := trace s ++ List.map St_page header
                          ++ [St_success (FetchingLooksFor (t :: ts));
                              Load_clip_model];
                 draws := draws s |} in
    match from_pretrained w with
    | Raise e => (Raise e, s1)
    | Ok _ =>
        match forM_ (process_topic w) (t :: ts) s1 with
        | (Ok _, s2) =>
            (Ok tt, {| trace := trace s2 ++ [St_info PoweredBy];
                       draws := draws s2 |})
        | (Raise e, s2) => (Raise e, s2)
        end
    end.
Proof.
  intros Hsel. unfold script. unfold bind at 1. rewrite forM_emit_pages.
  rewrite Hsel. rewrite bind_emit. unfold load_clip_model.
  unfold bind at 1. rewrite bind_emit. unfold lift. cbn [trace draws].
  rewrite <- !app_assoc. cbn [app]. cbv zeta.
  destruct (from_pretrained w) as [[] | e]; [| reflexivity].
  unfold bind.
  destruct (forM_ (process_topic w) (t :: ts) _) as [[[] | e] s2]; reflexivity.
Qed.

Lemma page_no_headers els : topic_headers (List.map St_page els) = [].
Proof. induction els as [| el els IH]; [reflexivity | exact IH]. Qed.

Lemma page_search_is_for w topics els :
  Forall (search_is_for w topics) (List.map St_page els).
Proof. induction els; constructor; [exact I | assumption]. Qed.

Lemma script_trace w s :
  let topics := selected_topics (multiselect w) (text_input w) in
  exists added n,
    trace (snd (script w s)) = trace s ++ added
    /\ topic_headers added = firstn n topics
    /\ (fst (script w s) = Ok tt -> n = List.length topics)
    /\ Forall (search_is_for w topics) added.
Proof.
  cbv zeta.
  destruct (selected_topics (multiselect w) (text_input w))
    as [| t ts] eqn:Hsel.
  - exists (List.map St_page header ++ [St_info ChooseAtLeastOne]), 0%nat.
    unfold script. unfold bind at 1. rewrite forM_emit_pages, Hsel.
    rewrite bind_emit. cbn [st_stop raise fst snd trace].
    rewrite <- app_assoc. repeat split.
    apply Forall_app. split; [apply page_search_is_for | now repeat constructor].
  - rewrite (script_run w s t ts Hsel). cbv zeta.
    set (pre := List.map St_page header
                ++ [St_success (FetchingLooksFor (t :: ts)); Load_clip_model]).
    assert (Hpre : topic_headers pre = []
                   /\ Forall (search_is_for w (t :: ts)) pre).
    { subst pre. rewrite topic_headers_app, page_no_headers. split;
        [reflexivity |].
      apply Forall_app. split; [apply page_search_is_for |].
      now repeat constructor. }
    destruct Hpre as [Hh0 HQ0].
    destruct (from_pretrained w) as [[] | e].
    + destruct (topic_loop_trace w (t :: ts) (t :: ts)
                  {| trace := trace s ++ pre; draws := draws s |}
                  (fun _ H => H)) as (added & n & Ht & Hh & Hn & HQ).
      cbn [trace] in Ht.
      destruct (forM_ (process_topic w) (t :: ts) _) as [[[] | e] s2];
        cbn [fst snd trace] in *.
      * exists (pre ++ added ++ [St_info PoweredBy]), n.
        rewrite Ht, <- !app_assoc. split; [reflexivity |].
        rewrite !topic_headers_app, Hh0, Hh. cbn [app topic_headers flat_map].
        rewrite app_nil_r. split; [reflexivity |]. split; [auto |].
        apply Forall_app. split; [assumption |].
        apply Forall_app. split; [assumption | now repeat constructor].
      * exists (pre ++ added), n. rewrite Ht, <- app_assoc.
        split; [reflexivity |].
        rewrite topic_headers_app, Hh0, Hh. split; [reflexivity |].
        split; [discriminate |]. apply Forall_app. now split.
    + exists pre, 0%nat. cbn [fst snd trace]. split; [reflexivity |].
      split; [assumption |]. split; [discriminate | assumption].
Qed.

(** X16.  Topics are processed in the order of the selection: the topic
    headers the page shows are an initial part of the selected topics, and
    all of them, each once, when the page runs to its end. *)
Theorem topics_shown_in_selection_order (w : world) (s : state) :
  let topics := selected_topics (multiselect w) (text_input w) in
  exists added n,
    trace (snd (script w s)) = trace s ++ added
    /\ topic_headers added = firstn n topics
    /\ (fst (script w s) = Ok tt -> topic_headers added = topics).
Proof.
  cbv zeta. destruct (script_trace w s) as (added & n & Ht & Hh & Hn & _).
  exists added, n. split; [assumption |]. split; [assumption |].
  intros Hok. rewrite Hh, (Hn Hok). apply firstn_all.
Qed.

(** X17.  The page never searches for anything but a selected topic, always
    asks for ten results, and never sends a search without the configured,
    non-empty credential. *)
Theorem searches_only_for_selected_topics (w : world) (s : state) :
  exists added,
    trace (snd (script w s)) = trace s ++ added
    /\ Forall (search_is_for w (selected_topics (multiselect w) (text_input w)))
              added.
Proof.
  destruct (script_trace w s) as (added & n & Ht & _ & _ & HQ).
  now exists added.
Qed.

(** X18.  When loading the model raises, the page raises the same exception
    right after the banner: no topic is processed and no search request is
    sent. *)
Theorem model_load_failure_aborts
  (w : world) (s : state) (t : str) (ts : list str) (e : exn) :
  selected_topics (multiselect w) (text_input w) = t :: ts ->
  from_pretrained w = Raise e ->
  script w s
  = (Raise e,
     {| trace := trace s ++ List.map St_page header
                 ++ [St_success (FetchingLooksFor (t :: ts)); Load_clip_model];
        draws := draws s |}).
Proof.
  intros Hsel Hload. rewrite (script_run w s t ts Hsel). cbv zeta.
  now rewrite Hload.
Qed.

Lemma shows_at_most_bind_add {A B} a b (c : M A) (k : A -> M B) :
  shows_at_most a c -> (forall x, shows_at_most b (k x)) ->
  shows_at_most (a + b) (bind c k).
Proof.
  intros Hc Hk s. unfold bind. destruct (Hc s) as (t & Ht & Hn).
  destruct (c s) as [[x | e] s'] eqn:E; cbn [snd] in *.
  - destruct (Hk x s') as (u & Hu & Hm). exists (t ++ u).
    rewrite Hu, Ht, app_assoc, images_shown_app. split; [reflexivity | lia].
  - exists t. split; [assumption | lia].
Qed.

Lemma shows_at_most_loop w topics :
  shows_at_most (5 * List.length topics) (forM_ (process_topic w) topics).
Proof.
  induction topics as [| t ts IH]; cbn [forM_ List.length].
  - apply shows_nothing_at_most, shows_nothing_ret.
  - replace (5 * S (List.length ts))%nat
      with (5 + 5 * List.length ts)%nat by lia.
    apply shows_at_most_bind_add;
      [apply process_topic_shows_at_most_five | intros _; exact IH].
Qed.

(** X19.  One run of the page shows at most five images for each selected
    topic. *)
Theorem page_shows_at_most_five_per_topic (w : world) :
  shows_at_most
    (5 * List.length (selected_topics (multiselect w) (text_input w)))
    (script w).
Proof.
  unfold script.
  apply shows_at_most_bind.
  { intros s. rewrite forM_emit_pages. cbn [snd trace].
    eexists. split; [reflexivity |].
    unfold images_shown. induction header; [reflexivity | assumption]. }
  intros _.
  destruct (selected_topics (multiselect w) (text_input w)) as [| t ts].
  - apply shows_nothing_at_most.
    apply shows_nothing_bind; [now apply shows_nothing_emit |].
    intros _ s. exists []. cbn. now rewrite app_nil_r.
  - apply shows_at_most_bind; [now apply shows_nothing_emit |]. intros _.
    apply shows_at_most_bind.
    { unfold load_clip_model.
      apply shows_nothing_bind; [now apply shows_nothing_emit |].
      intros _. apply shows_nothing_lift. }
    intros _.
    replace (5 * List.length (t :: ts))%nat
      with (5 * List.length (t :: ts) + 0)%nat by lia.
    apply shows_at_most_bind_add; [apply shows_at_most_loop |].
    intros _. apply shows_nothing_at_most. now apply shows_nothing_emit.
Qed.

(* ================================================================== *)
(** * The further properties on the sample run *)



Lemma malformed_result_raises_witness :
  record_of_result broken_item = Raise KeyError
  /\ exists e',
       fst (fetch_unsplash_images
              (variant_world
                 (fun _ _ _ => Ok {| status_code := 200;
                                     json := Ok broken_body |})
                 (Ok tt))
              (lit "boho") 10 initial)
       = Raise e'.
Proof.
  split; [reflexivity |].
  apply (malformed_result_raises _ (lit "boho") 10 initial (lit "key")
           {| status_code := 200; json := Ok broken_body |} broken_body
           [sample_item PNone "a"; broken_item] broken_item KeyError);
    try reflexivity; try discriminate.
  right. left. reflexivity.
Defined.

Lemma search_exception_propagates_witness :
  process_topic
    (variant_world (fun _ _ _ => Raise RequestException) (Ok tt))
    (lit "boho") initial
  = (Raise RequestException,
     {| trace := trace initial
                 ++ [St_topic_header (lit "boho");
                     Http_search (lit "boho") 10 (lit "key")];
        draws := draws initial |}).
Proof.
  apply (search_exception_propagates
           (variant_world (fun _ _ _ => Raise RequestException) (Ok tt))
           (lit "boho") initial (lit "key") RequestException);
    try reflexivity; discriminate.
Defined.

Lemma no_images_warns_and_skips_witness :
  process_topic idle_world (lit "boho") initial
  = (Ok tt,
     {| trace := [St_topic_header (lit "boho"); St_error MissingKey]
                 ++ [St_warning (NoImagesFor (lit "boho"))];
        draws := 0 |}).
Proof.
  apply (no_images_warns_and_skips idle_world (lit "boho") initial
           {| trace := [St_topic_header (lit "boho"); St_error MissingKey];
              draws := 0 |}).
  reflexivity.
Defined.

Lemma model_load_failure_aborts_witness :
  script (variant_world (requests_get_search sample_world)
            (Raise RuntimeError)) initial
  = (Raise RuntimeError,
     {| trace := trace initial ++ List.map St_page header
                 ++ [St_success
                       (FetchingLooksFor
                          (lit "vintage style"
                           :: [lit "boho"; lit "vintage style"]));
                     Load_clip_model];
        draws := draws initial |}).
Proof.
  apply (model_load_failure_aborts
           (variant_world (requests_get_search sample_world)
              (Raise RuntimeError))
           initial (lit "vintage style") [lit "boho"; lit "vintage style"]
           RuntimeError); reflexivity.
Defined.


(* ================================================================== *)
(** * The records shown are the best ones *)

(** [>=] on floats is transitive. *)
Lemma fge_trans (a b c : float) :
  fge a b = true -> fge b c = true -> fge a c = true.
Proof.
  unfold fge, SFleb.
  destruct a as [sa | sa | | sa ma ea], b as [sb | sb | | sb mb eb],
           c as [sc | sc | | sc mc ec];
    cbn [SFcompare];
    try discriminate; try reflexivity;
    try (destruct sa; try discriminate; try reflexivity);
    try (destruct sb; try discriminate; try reflexivity);
    try (destruct sc; try discriminate; try reflexivity);
    try (intros; discriminate).
  all: change (Pos.compare_cont Eq mb ma) with (mb ?= ma)%positive;
    change (Pos.compare_cont Eq mc mb) with (mc ?= mb)%positive;
    change (Pos.compare_cont Eq mc ma) with (mc ?= ma)%positive;
    destruct (Z.compare_spec eb ea), (Z.compare_spec ec eb),
      (Z.compare_spec ec ea); try lia;
    destruct (Pos.compare_spec mb ma), (Pos.compare_spec mc mb),
      (Pos.compare_spec mc ma);
    cbn [CompOpp]; intros; try reflexivity; try discriminate; lia.
Qed.

Section Chains.
Context {A : Type}.
Variable R : A -> A -> Prop.

Lemma chain_weaken (R' : A -> A -> Prop) (l : list A) :
  (forall a b, In a l -> In b l -> R a b -> R' a b) ->
  chain R l -> chain R' l.
Proof.
  induction l as [| a l IH]; intros Himp H; [exact I |].
  destruct l as [| b l]; [exact I |]. destruct H as [Hab H]. split.
  - apply Himp; cbn; auto.
  - apply IH; [| exact H]. intros x y Hx Hy. apply Himp; now right.
Qed.

Hypothesis R_trans : forall a b c, R a b -> R b c -> R a c.

Lemma chain_head_all a l : chain R (a :: l) -> Forall (R a) l.
Proof.
  revert a. induction l as [| b l IH]; intros a H; [constructor |].
  destruct H as [Hab H]. constructor; [exact Hab |].
  eapply Forall_impl; [| exact (IH b H)]. intros c. now apply R_trans.
Qed.

Lemma chain_split l1 l2 a b :
  chain R (l1 ++ l2) -> In a l1 -> In b l2 -> R a b.
Proof.
  induction l1 as [| x l1 IH]; intros H Ha Hb; [contradiction |].
  destruct Ha as [-> | Ha].
  - pose proof (chain_head_all _ _ H) as Hall. rewrite Forall_forall in Hall.
    apply Hall, in_or_app. now right.
  - apply IH; try assumption.
    cbn [app] in H. destruct (l1 ++ l2); [exact I | exact (proj2 H)].
Qed.
End Chains.

(** X20.  When every record has a score and none of the scores is NaN, the
    five records the Presenter takes are the best: each of them has a score
    greater than or equal to that of every record left out. *)
Theorem shown_records_have_the_highest_scores
  (images out : list image_record) :
  Forall (fun img => exists x, score img = Some x /\ is_nan x = false) images ->
  ranked images = Ok out ->
  forall a b x y,
    In a (firstn 5 out) -> In b (skipn 5 out) ->
    score a = Some x -> score b = Some y ->
    fge x y = true.
Proof.
  intros Hall H a b x y Ha Hb Hx Hy. unfold ranked in H.
  destruct (rmap get_score images) as [keys |] eqn:Hk; [| discriminate].
  cbn [rbind] in H.
  assert (Hout : out = List.map snd (sorted fst true (combine keys images)))
    by congruence.
  subst out. clear H.
  destruct (rmap_get_score_inv _ _ Hk) as [Hsnd Hinv].
  set (pairs := combine keys images) in *.
  set (l := sorted fst true pairs) in *.
  assert (Hgood : forall p, In p l ->
            score (snd p) = Some (fst p) /\ is_nan (fst p) = false).
  { intros p Hp.
    apply (Permutation_in _ (sorted_Permutation fst true pairs)) in Hp.
    rewrite Forall_forall in Hinv, Hall. pose proof (Hinv p Hp) as Hs.
    split; [exact Hs |].
    destruct (Hall (snd p)) as (z & Hz & Hnan);
      [rewrite <- Hsnd; now apply in_map | congruence]. }
  assert (Hchain : chain (fun p q => fge (fst p) (fst q) = true) l).
  { apply (chain_weaken (not_before fst)); [| apply sorted_reverse_chain].
    intros p q Hp Hq Hpq. apply flt_false_fge; try exact Hpq;
      now apply Hgood. }
  rewrite firstn_map in Ha. rewrite skipn_map in Hb.
  apply in_map_iff in Ha as (p & <- & Hp).
  apply in_map_iff in Hb as (q & <- & Hq).
  rewrite <- (firstn_skipn 5 l) in Hchain.
  pose proof (chain_split _ (fun u v t => fge_trans (fst u) (fst v) (fst t))
                _ _ p q Hchain Hp Hq) as Hpq.
  destruct (Hgood p) as [Hsp _];
    [rewrite <- (firstn_skipn 5 l); apply in_or_app; now left |].
  destruct (Hgood q) as [Hsq _];
    [rewrite <- (firstn_skipn 5 l); apply in_or_app; now right |].
  congruence.
Qed.

Lemma shown_records_have_the_highest_scores_witness :
  ranked ten_records = Ok (rev ten_records)
  /\ In (set_score record_b (of_int 7)) (firstn 5 (rev ten_records))
  /\ In (set_score record_b (of_int 2)) (skipn 5 (rev ten_records))
  /\ fge (of_int 7) (of_int 2) = true.
Proof.
  assert (Ha : In (set_score record_b (of_int 7)) (firstn 5 (rev ten_records)))
    by (cbn; tauto).
  assert (Hb : In (set_score record_b (of_int 2)) (skipn 5 (rev ten_records)))
    by (cbn; tauto).
  split; [reflexivity |]. split; [exact Ha |]. split; [exact Hb |].
  apply (shown_records_have_the_highest_scores ten_records (rev ten_records))
    with (a := set_score record_b (of_int 7))
         (b := set_score record_b (of_int 2));
    try reflexivity; try assumption.
  repeat constructor; eexists; split; reflexivity.
Defined.
